(** * Non-maximum suppression: the [nms] class of non_max_supression.py

    A shallow embedding of [get_data], [get_iou] and [compute_nms], and the
    properties of the specification checked against it.

    Number model.  The program computes on binary64 floats (Python floats
    and numpy float64).  Here a number is an exact rational in canonical
    form ([Qc]), so that equality is Leibniz equality: rounding, NaN and
    infinities are outside the model, and the literal [1e-5] is the
    rational 1/100000.

    Array model.  A two-dimensional numpy array is a list of rows, each row
    a list of numbers; indexing past the end raises [IndexError], as numpy
    and Python lists do. *)

From Stdlib Require Import String DecimalString DecimalZ.
From Stdlib Require Import List Arith Lia Bool ZArith QArith Qcanon Lqa.
From Stdlib Require Import Sorted Permutation.
From Stdlib Require Floats.
Import Corelib.Init.Datatypes.
Import ListNotations.

(** ** Exceptions and the error monad *)

Inductive exn : Type :=
| IndexError   (* a list or array index out of range *)
| ValueError   (* numpy refuses to build an array from ragged rows *)
| NoFuel.      (* the loop bound of the model was reached *)

Inductive M (A : Type) : Type :=
| Ok (a : A)
| Raise (e : exn).

Arguments Ok {A} a.
Arguments Raise {A} e.

Definition bind {A B : Type} (m : M A) (k : A -> M B) : M B :=
  match m with
  | Ok a => k a
  | Raise e => Raise e
  end.

Notation "x <- m ;; k" := (bind m (fun x => k))
  (at level 61, m at next level, right associativity).

Fixpoint mapM {A B : Type} (f : A -> M B) (l : list A) : M (list B) :=
  match l with
  | [] => Ok []
  | a :: l' => b <- f a ;; bs <- mapM f l' ;; Ok (b :: bs)
  end.

(** ** Numbers *)

Local Open Scope Qc_scope.

Definition num := Qc.

Definition ltb (a b : num) : bool :=
  match a ?= b with Lt => true | _ => false end.

Definition leb (a b : num) : bool :=
  match a ?= b with Gt => false | _ => true end.

Definition gtb (a b : num) : bool := ltb b a.

Definition eqb_num (a b : num) : bool :=
  match a ?= b with Eq => true | _ => false end.

(** Python's two-argument [max] and [min] keep the first argument unless
    the second is strictly better. *)
Definition py_max (a b : num) : num := if ltb a b then b else a.
Definition py_min (a b : num) : num := if ltb b a then b else a.

Definition of_Z (z : Z) : num := Q2Qc (inject_Z z).
Definition frac (n : Z) (d : positive) : num := Q2Qc (n # d).

(** The literal 1e-5. *)
Definition epsilon : num := frac 1 100000.

(** ** Rows *)

Definition row := list num.

(** [l[i]] for a non-negative index. *)
Definition idx {A : Type} (l : list A) (i : nat) : M A :=
  match nth_error l i with
  | Some a => Ok a
  | None => Raise IndexError
  end.

(** [l[-1]]. *)
Definition idx_last {A : Type} (l : list A) : M A :=
  match l with
  | [] => Raise IndexError
  | _ => idx l (length l - 1)%nat
  end.

(** [l[i] = v] (list item assignment). *)
Fixpoint set_idx {A : Type} (l : list A) (i : nat) (v : A) : M (list A) :=
  match l, i with
  | [], _ => Raise IndexError
  | _ :: l', O => Ok (v :: l')
  | a :: l', S i' => l'' <- set_idx l' i' v ;; Ok (a :: l'')
  end.

(** ** get_data *)

(** The test of line 55 on field number [i] of a line. *)
Definition weird (i : nat) (float_f : num) : bool :=
  ltb float_f 0
  || (((i =? 2)%nat || (i =? 3)%nat) && leb float_f 0)
  || ((i =? 4)%nat && gtb float_f 1).

(** The inner loop, lines 48 to 57: a field that fails the test is skipped
    by [continue], the other fields of the line are still appended. *)
Fixpoint clean_fields (l : list num) (i : nat) : list num :=
  match l with
  | [] => []
  | float_f :: l' =>
      if weird i float_f then clean_fields l' (S i)
      else float_f :: clean_fields l' (S i)
  end.

(** Lines 46 to 62 for one line of the file, whose fields are already
    converted to numbers: [l_clean[2] += l_clean[0]; l_clean[3] += l_clean[1]]. *)
Definition clean_line (l : list num) : M row :=
  let l_clean := clean_fields l 0 in
  a2 <- idx l_clean 2 ;;
  a0 <- idx l_clean 0 ;;
  l_clean <- set_idx l_clean 2 (a2 + a0) ;;
  a3 <- idx l_clean 3 ;;
  a1 <- idx l_clean 1 ;;
  set_idx l_clean 3 (a3 + a1).

(** [np.array] of a list of rows: the rows must have one common length
    (numpy 1.24 and later raise [ValueError] on ragged rows). *)
Definition np_array (rows : list row) : M (list row) :=
  match rows with
  | [] => Ok []
  | r :: rows' =>
      if forallb (fun r' => (length r' =? length r)%nat) rows'
      then Ok rows else Raise ValueError
  end.

(** The object state: the two fields set by [__init__]. [data] is the
    array, [final_res] is [None] until [compute_nms] sets it. *)
Record nms : Type := mk_nms {
  data : list row;
  final_res : option (list row)
}.

(** [get_data], from the parsed lines of the file. *)
Definition get_data (self : nms) (lines : list (list num)) : M nms :=
  rows <- mapM clean_line lines ;;
  arr <- np_array rows ;;
  Ok (mk_nms arr (final_res self)).

(** ** get_iou *)

Definition get_iou (b1 b2 : row) : M num :=
  b10 <- idx b1 0 ;; b20 <- idx b2 0 ;;
  let x1 := py_max b10 b20 in
  b11 <- idx b1 1 ;; b21 <- idx b2 1 ;;
  let y1 := py_max b11 b21 in
  b12 <- idx b1 2 ;; b22 <- idx b2 2 ;;
  let x2 := py_min b12 b22 in
  b13 <- idx b1 3 ;; b23 <- idx b2 3 ;;
  let y2 := py_min b13 b23 in
  let width := x2 - x1 in
  let height := y2 - y1 in
  if ltb width 0 || ltb height 0 then Ok 0
  else
    let area_intersect := width * height in
    let area_b1 := (b12 - b10) * (b13 - b11) in
    let area_b2 := (b22 - b20) * (b23 - b21) in
    let total_area := area_b1 + area_b2 - area_intersect in
    Ok (area_intersect / (total_area + epsilon)).

(** ** compute_nms *)

(** [sorted(l, key=...)]: the keys are computed once, in order, and the
    sort is stable and compares keys with [<] only.  It is modelled by a
    stable insertion sort on the decorated list. *)
Fixpoint insert_keyed {A : Type} (k : num) (x : A) (l : list (num * A))
  : list (num * A) :=
  match l with
  | [] => [(k, x)]
  | (k', y) :: l' =>
      if ltb k' k then (k', y) :: insert_keyed k x l'
      else (k, x) :: (k', y) :: l'
  end.

Fixpoint sort_keyed {A : Type} (l : list (num * A)) : list (num * A) :=
  match l with
  | [] => []
  | (k, x) :: l' => insert_keyed k x (sort_keyed l')
  end.

Definition py_sorted {A : Type} (key : A -> M num) (l : list A) : M (list A) :=
  keys <- mapM key l ;;
  Ok (map snd (sort_keyed (combine keys l))).

(** [np.where(mask)[0]]: the positions where the mask holds. *)
Fixpoint np_where_from (i : nat) (mask : list bool) : list nat :=
  match mask with
  | [] => []
  | b :: mask' =>
      if b then i :: np_where_from (S i) mask' else np_where_from (S i) mask'
  end.

Definition np_where (mask : list bool) : list nat := np_where_from 0 mask.

(** [np.delete(arr, obj)]: a copy of [arr] without the positions listed in
    [obj]; a position out of bounds raises. *)
Fixpoint delete_from {A : Type} (i : nat) (arr : list A) (obj : list nat)
  : list A :=
  match arr with
  | [] => []
  | a :: arr' =>
      if existsb (Nat.eqb i) obj then delete_from (S i) arr' obj
      else a :: delete_from (S i) arr' obj
  end.

Definition np_delete {A : Type} (arr : list A) (obj : list nat) : M (list A) :=
  if forallb (fun p => (p <? length arr)%nat) obj then Ok (delete_from 0 arr obj)
  else Raise IndexError.

(** One pass of the [while] loop, lines 202 to 214. *)
Definition nms_iter (sortedby_confidence_data : list row) (iou_threshold : num)
    (sortedby_confidence_indices res : list nat) : M (list nat * list nat) :=
  let curr_len := length sortedby_confidence_indices in
  let highest_pc_index := (curr_len - 1)%nat in
  h <- idx sortedby_confidence_indices highest_pc_index ;;
  let res := res ++ [h] in
  let last := removelast sortedby_confidence_indices in
  others <- mapM (idx sortedby_confidence_data) last ;;
  ious <- mapM (fun b =>
                  i <- idx_last sortedby_confidence_indices ;;
                  best <- idx sortedby_confidence_data i ;;
                  get_iou best b) others ;;
  inds <- np_delete sortedby_confidence_indices [highest_pc_index] ;;
  inds <- np_delete inds (np_where (map (fun v => gtb v iou_threshold) ious)) ;;
  Ok (inds, res).

(** The [while curr_len > 0] loop.  Every pass removes at least one index,
    so [fuel] passes are enough when [fuel] is the number of indices. *)
Fixpoint nms_while (fuel : nat) (sortedby_confidence_data : list row)
    (iou_threshold : num) (sortedby_confidence_indices res : list nat)
  : M (list nat) :=
  if (0 <? length sortedby_confidence_indices)%nat then
    match fuel with
    | O => Raise NoFuel
    | S fuel' =>
        st <- nms_iter sortedby_confidence_data iou_threshold
                sortedby_confidence_indices res ;;
        nms_while fuel' sortedby_confidence_data iou_threshold (fst st) (snd st)
    end
  else Ok res.

(** [arr[:, j] -= arr[:, i]] on a two-dimensional array. *)
Definition col_isub (arr : list row) (j i : nat) : M (list row) :=
  mapM (fun r => vj <- idx r j ;; vi <- idx r i ;; set_idx r j (vj - vi)) arr.

(** What [compute_nms] returns: [[]] on the early exit, [None] at the end. *)
Inductive retval : Type :=
| RetEmptyList
| RetNone.

Definition compute_nms (self : nms) (iou_threshold : num) : M (retval * nms) :=
  if (length (data self) =? 0)%nat then Ok (RetEmptyList, self)
  else
    sortedby_confidence_data <- py_sorted (@idx_last num) (data self) ;;
    let sortedby_confidence_indices := seq 0 (length sortedby_confidence_data) in
    res <- nms_while (length sortedby_confidence_indices)
             sortedby_confidence_data iou_threshold
             sortedby_confidence_indices [] ;;
    fr <- mapM (idx sortedby_confidence_data) res ;;
    fr <- col_isub fr 2 0 ;;
    fr <- col_isub fr 3 1 ;;
    Ok (RetNone, mk_nms (data self) (Some fr)).

(** The boxes a call hands back: the returned list on the early exit,
    [self.final_res] otherwise. *)
Definition result_of (out : retval * nms) : list row :=
  match fst out with
  | RetEmptyList => []
  | RetNone =>
      match final_res (snd out) with
      | Some fr => fr
      | None => []
      end
  end.

(** [get_data] then [compute_nms] on a fresh object, as the main program
    does, from the parsed lines of the input file. *)
Definition suppress (lines : list (list num)) (iou_threshold : num)
  : M (list row) :=
  self <- get_data (mk_nms [] None) lines ;;
  out <- compute_nms self iou_threshold ;;
  Ok (result_of out).

(** ** Pure counterparts, used to state what the code computes

    On rows that are wide enough no index lookup fails, and each monadic
    definition above agrees with a plain function; the lemmas further down
    prove it. *)

(** The key of the sort, [x[-1]]. *)
Definition score (r : row) : num := last r 0.

(** [get_iou] on rows with the four coordinates present. *)
Definition iou (b1 b2 : row) : num :=
  let c (b : row) (i : nat) := nth i b 0 in
  let x1 := py_max (c b1 0%nat) (c b2 0%nat) in
  let y1 := py_max (c b1 1%nat) (c b2 1%nat) in
  let x2 := py_min (c b1 2%nat) (c b2 2%nat) in
  let y2 := py_min (c b1 3%nat) (c b2 3%nat) in
  let width := x2 - x1 in
  let height := y2 - y1 in
  if ltb width 0 || ltb height 0 then 0
  else
    let area_intersect := width * height in
    let area_b1 := (c b1 2%nat - c b1 0%nat) * (c b1 3%nat - c b1 1%nat) in
    let area_b2 := (c b2 2%nat - c b2 0%nat) * (c b2 3%nat - c b2 1%nat) in
    area_intersect / (area_b1 + area_b2 - area_intersect + epsilon).

(** Width/height form to corner form (lines 61 and 62) and back (lines 221
    and 222). *)
Definition to_corner (r : row) : row :=
  match r with
  | x :: y :: w :: h :: rest => x :: y :: (w + x) :: (h + y) :: rest
  | _ => r
  end.

Definition to_xywh (r : row) : row :=
  match r with
  | x1 :: y1 :: x2 :: y2 :: rest => x1 :: y1 :: (x2 - x1) :: (y2 - y1) :: rest
  | _ => r
  end.

(** Stable insertion sort by a key. *)
Fixpoint insert_by {A : Type} (key : A -> num) (x : A) (l : list A) : list A :=
  match l with
  | [] => [x]
  | y :: l' =>
      if ltb (key y) (key x) then y :: insert_by key x l'
      else x :: y :: l'
  end.

Fixpoint sort_by {A : Type} (key : A -> num) (l : list A) : list A :=
  match l with
  | [] => []
  | x :: l' => insert_by key x (sort_by key l')
  end.

(** Ascending by key. *)
Definition ascending {A : Type} (key : A -> num) (l : list A) : Prop :=
  StronglySorted (fun a b => key a <= key b) l.

(** The elements of key [k], in the order of the list. *)
Definition with_key {A : Type} (key : A -> num) (k : num) (l : list A)
  : list A :=
  filter (fun x => eqb_num (key x) k) l.

(** The greedy selection: the head is accepted and every later element it
    suppresses is removed.  The list is the remaining boxes, best first. *)
Fixpoint select {A : Type} (sup : A -> A -> bool) (fuel : nat) (l : list A)
  : list A :=
  match fuel, l with
  | S fuel', h :: rest =>
      h :: select sup fuel' (filter (fun x => negb (sup h x)) rest)
  | _, _ => []
  end.

(** [sup t a b]: accepted box [a] suppresses box [b] at threshold [t]. *)
Definition sup (t : num) (a b : row) : bool := gtb (iou a b) t.

(** The same on positions of the sorted array. *)
Definition sup_idx (sd : list row) (t : num) (i j : nat) : bool :=
  sup t (nth i sd []) (nth j sd []).

(** The same on input records, which are in width/height form. *)
Definition sup_line (t : num) (a b : list num) : bool :=
  sup t (to_corner a) (to_corner b).

(** What [suppress] computes on accepted records: the greedy selection
    from the records read from the highest score down. *)
Definition survivors (t : num) (lines : list (list num)) : list (list num) :=
  select (sup_line t) (length lines) (rev (sort_by score lines)).

(** What [compute_nms] leaves in [final_res] on rows in corner form. *)
Definition nms_rows (t : num) (X : list row) : list row :=
  map to_xywh (select (sup t) (length X) (rev (sort_by score X))).

(** A row with the four coordinates and a score after them. *)
Definition wide (r : row) : Prop := (5 <= length r)%nat.

(** An input record that passes every test of line 55. *)
Definition accepted (l : list num) : Prop :=
  exists x y w h s,
    l = [x; y; w; h; s] /\
    0 <= x /\ 0 <= y /\ 0 < w /\ 0 < h /\ 0 <= s /\ s <= 1.

(** Decidable equality of results, to evaluate the code on closed inputs. *)
Definition row_eqb (r1 r2 : row) : bool :=
  (length r1 =? length r2)%nat
  && forallb (fun p => eqb_num (fst p) (snd p)) (combine r1 r2).

Definition rows_eqb (l1 l2 : list row) : bool :=
  (length l1 =? length l2)%nat
  && forallb (fun p => row_eqb (fst p) (snd p)) (combine l1 l2).

Definition exn_eqb (e1 e2 : exn) : bool :=
  match e1, e2 with
  | IndexError, IndexError | ValueError, ValueError | NoFuel, NoFuel => true
  | _, _ => false
  end.

Definition M_eqb {A : Type} (eqb : A -> A -> bool) (m1 m2 : M A) : bool :=
  match m1, m2 with
  | Ok a1, Ok a2 => eqb a1 a2
  | Raise e1, Raise e2 => exn_eqb e1 e2
  | _, _ => false
  end.

(** ** write_res and the main program *)

(** [int(v)] on a float: truncation toward zero. *)
Definition py_int (v : num) : Z :=
  Z.quot (Qnum (this v)) (Zpos (Qden (this v))).

(** [str(n)] on an integer: decimal digits, with a sign when negative. *)
Definition str_int (z : Z) : string := NilZero.string_of_int (Z.to_int z).

Definition newline : string := String (Ascii.ascii_of_nat 10) EmptyString.

(** Exceptions of the whole program: the ones above, and the [TypeError]
    of iterating over [None]. *)
Inductive io_exn : Type :=
| Raised (e : exn)
| TypeError
| OverflowError.   (* [int] of an infinite float *)

Inductive outcome (A : Type) : Type :=
| Returns (a : A)
| Throws (e : io_exn).

Arguments Returns {A} a.
Arguments Throws {A} e.

(** The exceptions of [int] on a float. *)
Definition int_error (e : io_exn) : Prop :=
  e = OverflowError \/ e = Raised ValueError.

Definition lift {A : Type} (m : M A) : outcome A :=
  match m with
  | Ok a => Returns a
  | Raise e => Throws (Raised e)
  end.

Definition obind {A B : Type} (m : outcome A) (k : A -> outcome B)
  : outcome B :=
  match m with
  | Returns a => k a
  | Throws e => Throws e
  end.

Fixpoint omapM {A B : Type} (f : A -> outcome B) (l : list A)
  : outcome (list B) :=
  match l with
  | [] => Returns []
  | a :: l' =>
      obind (f a) (fun b => obind (omapM f l') (fun bs => Returns (b :: bs)))
  end.

Section Output.

(** [str] of a float (the shortest decimal text that reads back as the
    same binary64 value) has no counterpart on rationals; it is a
    parameter of the model. *)
Variable str_float : num -> string.

(** Lines 242 to 244 for one box: the text written for [bb]. *)
Definition write_row (delimiter : string) (bb : row) : M string :=
  let ints :=
    String.concat ""%string
      (map (fun i => String.append (str_int (py_int i))
                       (String.append delimiter " "%string))
           (removelast bb)) in
  s <- idx_last bb ;;
  Ok (String.append ints (String.append (str_float s) newline)).

(** [write_res]: the text written to the file. *)
Definition write_res (self : nms) (delimiter : string) : outcome string :=
  match final_res self with
  | None => Throws TypeError
  | Some fr =>
      lift (ls <- mapM (write_row delimiter) fr ;;
            Ok (String.concat ""%string ls))
  end.

(** The main program, lines 252 to 255, from the parsed lines of the input
    file to the text of the output file, with the default arguments. *)
Definition main (lines : list (list num)) : outcome string :=
  match get_data (mk_nms [] None) lines with
  | Raise e => Throws (Raised e)
  | Ok self =>
      match compute_nms self (frac 1 2) with
      | Raise e => Throws (Raised e)
      | Ok out => write_res (snd out) ","%string
      end
  end.

End Output.

(** ** Predicates on boxes *)

(** A row in corner form whose corners are in order. *)
Definition box_geometry (b : row) : Prop :=
  exists x1 y1 x2 y2 rest,
    b = x1 :: y1 :: x2 :: y2 :: rest /\ x1 <= x2 /\ y1 <= y2.

(** The invariant of a stored box: corners inside the positive quadrant
    and in order, score between 0 and 1. *)
Definition box_invariant (b : row) : Prop :=
  exists x1 y1 x2 y2 s,
    b = [x1; y1; x2; y2; s]
    /\ 0 <= x1 /\ 0 <= y1 /\ x1 <= x2 /\ y1 <= y2 /\ 0 <= s /\ s <= 1.

(** Decidable equality of outcomes on strings, for evaluation. *)
Definition outcome_eqb (o1 o2 : outcome string) : bool :=
  match o1, o2 with
  | Returns a1, Returns a2 => String.eqb a1 a2
  | Throws TypeError, Throws TypeError => true
  | Throws (Raised e1), Throws (Raised e2) => exn_eqb e1 e2
  | _, _ => false
  end.

(** [subseq l1 l2]: [l1] is [l2] with some elements left out, the others
    in the same order. *)
Inductive subseq {A : Type} : list A -> list A -> Prop :=
| subseq_nil : subseq [] []
| subseq_skip (x : A) (l1 l2 : list A) : subseq l1 l2 -> subseq l1 (x :: l2)
| subseq_keep (x : A) (l1 l2 : list A) :
    subseq l1 l2 -> subseq (x :: l1) (x :: l2).

(** * The same code on binary64 floats

    The definitions above compute on exact rationals.  Where a property
    depends on rounding, the code is embedded a second time on the
    primitive binary64 floats, whose operations are the IEEE 754 ones the
    program runs: correctly rounded [+ - * /], comparisons that are false
    on NaN, infinities.  Each definition below is the one of the same name
    above with the arithmetic replaced. *)

Module B64.
Import PrimFloat.
Local Open Scope float_scope.

Definition row := list float.

Definition py_max (a b : float) : float := if PrimFloat.ltb a b then b else a.
Definition py_min (a b : float) : float := if PrimFloat.ltb b a then b else a.

(** The literal 1e-5, rounded to binary64 as Python reads it. *)
Definition epsilon : float := 0x1.4f8b588e368f1p-17.

(** The test of line 55 on field number [i] of a line. *)
Definition weird (i : nat) (float_f : float) : bool :=
  PrimFloat.ltb float_f 0
  || (((i =? 2)%nat || (i =? 3)%nat) && PrimFloat.leb float_f 0)
  || ((i =? 4)%nat && PrimFloat.ltb 1 float_f).

Fixpoint clean_fields (l : list float) (i : nat) : list float :=
  match l with
  | [] => []
  | float_f :: l' =>
      if weird i float_f then clean_fields l' (S i)
      else float_f :: clean_fields l' (S i)
  end.

Definition clean_line (l : list float) : M row :=
  let l_clean := clean_fields l 0 in
  a2 <- idx l_clean 2 ;;
  a0 <- idx l_clean 0 ;;
  l_clean <- set_idx l_clean 2 (a2 + a0) ;;
  a3 <- idx l_clean 3 ;;
  a1 <- idx l_clean 1 ;;
  set_idx l_clean 3 (a3 + a1).

Definition np_array (rows : list row) : M (list row) :=
  match rows with
  | [] => Ok []
  | r :: rows' =>
      if forallb (fun r' => (length r' =? length r)%nat) rows'
      then Ok rows else Raise ValueError
  end.

Record nms : Type := mk_nms {
  data : list row;
  final_res : option (list row)
}.

Definition get_data (self : nms) (lines : list (list float)) : M nms :=
  rows <- mapM clean_line lines ;;
  arr <- np_array rows ;;
  Ok (mk_nms arr (final_res self)).

Definition get_iou (b1 b2 : row) : M float :=
  b10 <- idx b1 0 ;; b20 <- idx b2 0 ;;
  let x1 := py_max b10 b20 in
  b11 <- idx b1 1 ;; b21 <- idx b2 1 ;;
  let y1 := py_max b11 b21 in
  b12 <- idx b1 2 ;; b22 <- idx b2 2 ;;
  let x2 := py_min b12 b22 in
  b13 <- idx b1 3 ;; b23 <- idx b2 3 ;;
  let y2 := py_min b13 b23 in
  let width := x2 - x1 in
  let height := y2 - y1 in
  if PrimFloat.ltb width 0 || PrimFloat.ltb height 0 then Ok 0
  else
    let area_intersect := width * height in
    let area_b1 := (b12 - b10) * (b13 - b11) in
    let area_b2 := (b22 - b20) * (b23 - b21) in
    let total_area := area_b1 + area_b2 - area_intersect in
    Ok (area_intersect / (total_area + epsilon)).

Fixpoint insert_keyed {A : Type} (k : float) (x : A) (l : list (float * A))
  : list (float * A) :=
  match l with
  | [] => [(k, x)]
  | (k', y) :: l' =>
      if PrimFloat.ltb k' k then (k', y) :: insert_keyed k x l'
      else (k, x) :: (k', y) :: l'
  end.

Fixpoint sort_keyed {A : Type} (l : list (float * A)) : list (float * A) :=
  match l with
  | [] => []
  | (k, x) :: l' => insert_keyed k x (sort_keyed l')
  end.

Definition py_sorted {A : Type} (key : A -> M float) (l : list A)
  : M (list A) :=
  keys <- mapM key l ;;
  Ok (map snd (sort_keyed (combine keys l))).

Definition nms_iter (sortedby_confidence_data : list row)
    (iou_threshold : float)
    (sortedby_confidence_indices res : list nat) : M (list nat * list nat) :=
  let curr_len := length sortedby_confidence_indices in
  let highest_pc_index := (curr_len - 1)%nat in
  h <- idx sortedby_confidence_indices highest_pc_index ;;
  let res := res ++ [h] in
  let last := removelast sortedby_confidence_indices in
  others <- mapM (idx sortedby_confidence_data) last ;;
  ious <- mapM (fun b =>
                  i <- idx_last sortedby_confidence_indices ;;
                  best <- idx sortedby_confidence_data i ;;
                  get_iou best b) others ;;
  inds <- np_delete sortedby_confidence_indices [highest_pc_index] ;;
  inds <- np_delete inds
            (np_where (map (fun v => PrimFloat.ltb iou_threshold v) ious)) ;;
  Ok (inds, res).

Fixpoint nms_while (fuel : nat) (sortedby_confidence_data : list row)
    (iou_threshold : float) (sortedby_confidence_indices res : list nat)
  : M (list nat) :=
  if (0 <? length sortedby_confidence_indices)%nat then
    match fuel with
    | O => Raise NoFuel
    | S fuel' =>
        st <- nms_iter sortedby_confidence_data iou_threshold
                sortedby_confidence_indices res ;;
        nms_while fuel' sortedby_confidence_data iou_threshold (fst st) (snd st)
    end
  else Ok res.

Definition col_isub (arr : list row) (j i : nat) : M (list row) :=
  mapM (fun r => vj <- idx r j ;; vi <- idx r i ;; set_idx r j (vj - vi)) arr.

Definition compute_nms (self : nms) (iou_threshold : float)
  : M (retval * nms) :=
  if (length (data self) =? 0)%nat then Ok (RetEmptyList, self)
  else
    sortedby_confidence_data <- py_sorted (@idx_last float) (data self) ;;
    let sortedby_confidence_indices :=
      seq 0 (length sortedby_confidence_data) in
    res <- nms_while (length sortedby_confidence_indices)
             sortedby_confidence_data iou_threshold
             sortedby_confidence_indices [] ;;
    fr <- mapM (idx sortedby_confidence_data) res ;;
    fr <- col_isub fr 2 0 ;;
    fr <- col_isub fr 3 1 ;;
    Ok (RetNone, mk_nms (data self) (Some fr)).

Definition result_of (out : retval * nms) : list row :=
  match fst out with
  | RetEmptyList => []
  | RetNone =>
      match final_res (snd out) with
      | Some fr => fr
      | None => []
      end
  end.

Definition suppress (lines : list (list float)) (iou_threshold : float)
  : M (list row) :=
  self <- get_data (mk_nms [] None) lines ;;
  out <- compute_nms self iou_threshold ;;
  Ok (result_of out).

(** Pure counterparts, as for the rationals. *)

Definition score (r : row) : float := last r 0.

Definition iou (b1 b2 : row) : float :=
  let c (b : row) (i : nat) := nth i b 0 in
  let x1 := py_max (c b1 0%nat) (c b2 0%nat) in
  let y1 := py_max (c b1 1%nat) (c b2 1%nat) in
  let x2 := py_min (c b1 2%nat) (c b2 2%nat) in
  let y2 := py_min (c b1 3%nat) (c b2 3%nat) in
  let width := x2 - x1 in
  let height := y2 - y1 in
  if PrimFloat.ltb width 0 || PrimFloat.ltb height 0 then 0
  else
    let area_intersect := width * height in
    let area_b1 := (c b1 2%nat - c b1 0%nat) * (c b1 3%nat - c b1 1%nat) in
    let area_b2 := (c b2 2%nat - c b2 0%nat) * (c b2 3%nat - c b2 1%nat) in
    area_intersect / (area_b1 + area_b2 - area_intersect + epsilon).

Definition to_corner (r : row) : row :=
  match r with
  | x :: y :: w :: h :: rest => x :: y :: (w + x) :: (h + y) :: rest
  | _ => r
  end.

Definition to_xywh (r : row) : row :=
  match r with
  | x1 :: y1 :: x2 :: y2 :: rest => x1 :: y1 :: (x2 - x1) :: (y2 - y1) :: rest
  | _ => r
  end.

Fixpoint insert_by {A : Type} (key : A -> float) (x : A) (l : list A)
  : list A :=
  match l with
  | [] => [x]
  | y :: l' =>
      if PrimFloat.ltb (key y) (key x) then y :: insert_by key x l'
      else x :: y :: l'
  end.

Fixpoint sort_by {A : Type} (key : A -> float) (l : list A) : list A :=
  match l with
  | [] => []
  | x :: l' => insert_by key x (sort_by key l')
  end.

(** [sup t a b]: accepted box [a] suppresses box [b] at threshold [t],
    the test [ious > iou_threshold] of line 214. *)
Definition sup (t : float) (a b : row) : bool := PrimFloat.ltb t (iou a b).

Definition sup_idx (sd : list row) (t : float) (i j : nat) : bool :=
  sup t (nth i sd []) (nth j sd []).

(** What [compute_nms] leaves in [final_res] on rows in corner form. *)
Definition nms_rows (t : float) (X : list row) : list row :=
  map to_xywh (select (sup t) (length X) (rev (sort_by score X))).

Definition wide (r : row) : Prop := (5 <= length r)%nat.

(** A record of five fields none of which fails the test of line 55:
    x, y, w, h and the score are not below 0, w and h are not 0, the
    score is not above 1. *)
Definition accepted (l : list float) : Prop :=
  exists x y w h s,
    l = [x; y; w; h; s]
    /\ weird 0 x = false /\ weird 1 y = false /\ weird 2 w = false
    /\ weird 3 h = false /\ weird 4 s = false.


(** [int(v)]: truncation toward zero; [ValueError] on NaN and
    [OverflowError] on an infinity. *)
Definition py_int (v : float) : outcome Z :=
  match FloatOps.Prim2SF v with
  | SpecFloat.S754_nan => Throws (Raised ValueError)
  | SpecFloat.S754_infinity _ => Throws OverflowError
  | SpecFloat.S754_zero _ => Returns 0%Z
  | SpecFloat.S754_finite s m e =>
      let a := if (0 <=? e)%Z then Z.shiftl (Zpos m) e
               else Z.shiftr (Zpos m) (- e) in
      Returns (if s then (- a)%Z else a)
  end.

(** Neither NaN nor an infinity. *)
Definition finite (v : float) : bool :=
  match FloatOps.Prim2SF v with
  | SpecFloat.S754_nan | SpecFloat.S754_infinity _ => false
  | _ => true
  end.

Section Output.

(** [str] of a float is a parameter, as above. *)
Variable str_float : float -> string.

(** One call [f.write(str(int(i)) + delimiter + ' ')]. *)
Definition write_field (delimiter : string) (i : float) : outcome string :=
  obind (py_int i)
    (fun z => Returns (String.append (str_int z)
                         (String.append delimiter " "%string))).

(** Lines 242 to 244 for one box.  The text written before an exception
    is not kept. *)
Definition write_row (delimiter : string) (bb : row) : outcome string :=
  obind (omapM (write_field delimiter) (removelast bb))
    (fun ws =>
       obind (lift (idx_last bb))
         (fun s =>
            Returns (String.append (String.concat ""%string ws)
                       (String.append (str_float s) newline)))).

Definition write_res (self : nms) (delimiter : string) : outcome string :=
  match final_res self with
  | None => Throws TypeError
  | Some fr =>
      obind (omapM (write_row delimiter) fr)
        (fun ls => Returns (String.concat ""%string ls))
  end.

Definition main (lines : list (list float)) : outcome string :=
  match get_data (mk_nms [] None) lines with
  | Raise e => Throws (Raised e)
  | Ok self =>
      match compute_nms self 0.5 with
      | Raise e => Throws (Raised e)
      | Ok out => write_res (snd out) ","%string
      end
  end.


End Output.

End B64.

(** * Lemmas *)

(** ** Comparisons *)

Lemma ltb_lt (a b : num) : ltb a b = true <-> a < b.
Proof.
  unfold ltb. rewrite Qclt_alt. destruct (a ?= b); split; congruence.
Qed.

Lemma ltb_ge (a b : num) : ltb a b = false <-> b <= a.
Proof.
  split; intro H.
  - apply Qcnot_lt_le. intro L. apply ltb_lt in L. congruence.
  - destruct (ltb a b) eqn:E; [|reflexivity].
    apply ltb_lt in E. exfalso. exact (Qcle_not_lt _ _ H E).
Qed.

Lemma leb_le (a b : num) : leb a b = true <-> a <= b.
Proof.
  unfold leb. rewrite Qcle_alt. destruct (a ?= b); split; congruence.
Qed.

Lemma gtb_gt (a b : num) : gtb a b = true <-> b < a.
Proof. exact (ltb_lt b a). Qed.

Lemma gtb_le (a b : num) : gtb a b = false <-> a <= b.
Proof. exact (ltb_ge b a). Qed.

Lemma eqb_num_eq (a b : num) : eqb_num a b = true <-> a = b.
Proof.
  unfold eqb_num. rewrite Qceq_alt. destruct (a ?= b); split; congruence.
Qed.

Lemma ltb_irrefl (a : num) : ltb a a = false.
Proof. apply ltb_ge. apply Qcle_refl. Qed.

Lemma py_max_comm (a b : num) : py_max a b = py_max b a.
Proof.
  unfold py_max. destruct (ltb a b) eqn:E1, (ltb b a) eqn:E2; trivial.
  - apply ltb_lt in E1, E2. exfalso.
    exact (Qclt_not_le _ _ E1 (Qclt_le_weak _ _ E2)).
  - apply ltb_ge in E1, E2. now apply Qcle_antisym.
Qed.

Lemma py_min_comm (a b : num) : py_min a b = py_min b a.
Proof.
  unfold py_min. destruct (ltb a b) eqn:E1, (ltb b a) eqn:E2; trivial.
  - apply ltb_lt in E1, E2. exfalso.
    exact (Qclt_not_le _ _ E1 (Qclt_le_weak _ _ E2)).
  - apply ltb_ge in E1, E2. now apply Qcle_antisym.
Qed.

(** ** Evaluation on closed inputs *)

Lemma row_eqb_eq (r1 r2 : row) : row_eqb r1 r2 = true -> r1 = r2.
Proof.
  unfold row_eqb. revert r2.
  induction r1 as [|a r1 IH]; intros [|b r2]; simpl; try discriminate; trivial.
  intro H. apply andb_prop in H. destruct H as [Hl H].
  apply andb_prop in H. destruct H as [Hab H].
  apply eqb_num_eq in Hab. subst b. f_equal.
  apply IH. now rewrite Hl, H.
Qed.

Lemma rows_eqb_eq (l1 l2 : list row) : rows_eqb l1 l2 = true -> l1 = l2.
Proof.
  unfold rows_eqb. revert l2.
  induction l1 as [|a l1 IH]; intros [|b l2]; simpl; try discriminate; trivial.
  intro H. apply andb_prop in H. destruct H as [Hl H].
  apply andb_prop in H. destruct H as [Hab H].
  apply row_eqb_eq in Hab. subst b. f_equal.
  apply IH. now rewrite Hl, H.
Qed.

Lemma M_rows_eqb_eq (m1 m2 : M (list row)) :
  M_eqb rows_eqb m1 m2 = true -> m1 = m2.
Proof.
  destruct m1 as [a1|e1], m2 as [a2|e2]; simpl; try discriminate.
  - intro H. f_equal. now apply rows_eqb_eq.
  - destruct e1, e2; simpl; try discriminate; trivial.
Qed.

(** Closes a goal [m1 = m2] between closed results by evaluation. *)
Ltac by_evaluation :=
  apply M_rows_eqb_eq; vm_compute; reflexivity.

(** ** Lookups on rows that are wide enough *)

Lemma get_iou_iou (b1 b2 : row) :
  (4 <= length b1)%nat -> (4 <= length b2)%nat ->
  get_iou b1 b2 = Ok (iou b1 b2).
Proof.
  intros H1 H2.
  destruct b1 as [|a0 [|a1 [|a2 [|a3 r1]]]]; simpl in H1; try lia.
  destruct b2 as [|c0 [|c1 [|c2 [|c3 r2]]]]; simpl in H2; try lia.
  unfold get_iou, iou. simpl.
  destruct (ltb _ 0 || ltb _ 0); reflexivity.
Qed.

Lemma iou_comm (b1 b2 : row) : iou b1 b2 = iou b2 b1.
Proof.
  unfold iou.
  rewrite (py_max_comm (nth 0 b1 0)), (py_max_comm (nth 1 b1 0)).
  rewrite (py_min_comm (nth 2 b1 0)), (py_min_comm (nth 3 b1 0)).
  destruct (ltb _ 0 || ltb _ 0); trivial.
  f_equal. f_equal. f_equal. apply Qcplus_comm.
Qed.

(** ** The sort *)

Section Sorting.
Variable A : Type.
Variable key : A -> num.

Local Abbreviation ascending := (ascending key).
Local Abbreviation with_key := (with_key key).

Lemma insert_by_perm x l : Permutation (insert_by key x l) (x :: l).
Proof.
  induction l as [|y l IH]; simpl; auto.
  destruct (ltb (key y) (key x)); auto.
  rewrite IH. apply perm_swap.
Qed.

Lemma sort_by_perm l : Permutation (sort_by key l) l.
Proof.
  induction l as [|x l IH]; simpl; auto.
  rewrite insert_by_perm. now constructor.
Qed.

Lemma sort_by_length l : length (sort_by key l) = length l.
Proof. apply Permutation_length, sort_by_perm. Qed.

Lemma insert_by_ascending x l :
  ascending l -> ascending (insert_by key x l).
Proof.
  unfold ascending.
  induction l as [|y l IH]; simpl; intro H.
  - repeat constructor.
  - inversion H as [|? ? Hl Hy]; subst.
    destruct (ltb (key y) (key x)) eqn:E.
    + constructor; [now apply IH|].
      apply ltb_lt in E.
      eapply Permutation_Forall.
      * symmetry. apply insert_by_perm.
      * constructor; [now apply Qclt_le_weak | assumption].
    + apply ltb_ge in E. constructor; [assumption|].
      constructor; [assumption|].
      eapply Forall_impl; [|exact Hy].
      intros a Ha. simpl in Ha. eapply Qcle_trans; eassumption.
Qed.

Lemma sort_by_ascending l : ascending (sort_by key l).
Proof.
  induction l as [|x l IH]; simpl.
  - constructor.
  - now apply insert_by_ascending.
Qed.

Lemma insert_by_with_key k x l :
  with_key k (insert_by key x l) = with_key k (x :: l).
Proof.
  unfold with_key.
  induction l as [|y l IH]; simpl; trivial.
  destruct (ltb (key y) (key x)) eqn:E; trivial.
  simpl. rewrite IH. simpl.
  destruct (eqb_num (key y) k) eqn:Ey, (eqb_num (key x) k) eqn:Ex; trivial.
  apply eqb_num_eq in Ey, Ex. rewrite Ey, Ex, ltb_irrefl in E. discriminate.
Qed.

(** The sort is stable: elements of one key keep their input order. *)
Lemma sort_by_stable k l : with_key k (sort_by key l) = with_key k l.
Proof.
  induction l as [|x l IH]; simpl; trivial.
  rewrite insert_by_with_key. unfold with_key in *. simpl. now rewrite IH.
Qed.

Lemma with_key_head x l : with_key (key x) (x :: l) = x :: with_key (key x) l.
Proof.
  unfold with_key. simpl.
  now rewrite (proj2 (eqb_num_eq (key x) (key x)) eq_refl).
Qed.

Lemma with_key_In k x l : In x (with_key k l) -> In x l /\ key x = k.
Proof.
  unfold with_key. rewrite filter_In. intros [H E].
  now apply eqb_num_eq in E.
Qed.

(** Two ascending lists with the same elements of every key, in the same
    order, are the same list. *)
Lemma ascending_stable_unique l1 :
  forall l2,
    ascending l1 -> ascending l2 ->
    (forall k, with_key k l1 = with_key k l2) ->
    l1 = l2.
Proof.
  unfold ascending.
  induction l1 as [|a l1 IH]; intros [|b l2] S1 S2 H; trivial.
  - specialize (H (key b)). rewrite with_key_head in H. discriminate.
  - specialize (H (key a)). rewrite with_key_head in H. discriminate.
  - inversion S1 as [|? ? S1' F1]; inversion S2 as [|? ? S2' F2]; subst.
    assert (Hk : key a = key b).
    { apply Qcle_antisym.
      - pose proof (H (key b)) as Hb. rewrite (with_key_head b) in Hb.
        assert (Hin : In b (with_key (key b) (a :: l1)))
          by (rewrite Hb; now left).
        apply with_key_In in Hin. destruct Hin as [[->|Hin] _].
        + apply Qcle_refl.
        + rewrite Forall_forall in F1. now apply F1.
      - pose proof (H (key a)) as Ha. rewrite (with_key_head a) in Ha.
        assert (Hin : In a (with_key (key a) (b :: l2)))
          by (rewrite <- Ha; now left).
        apply with_key_In in Hin. destruct Hin as [[->|Hin] _].
        + apply Qcle_refl.
        + rewrite Forall_forall in F2. now apply F2. }
    assert (Hab : a = b).
    { pose proof (H (key a)) as Ha. rewrite with_key_head in Ha.
      rewrite Hk in Ha at 2. rewrite with_key_head in Ha. congruence. }
    subst b. f_equal. apply IH; trivial.
    intro k. specialize (H k). unfold with_key in *. simpl in H.
    destruct (eqb_num (key a) k); congruence.
Qed.

(** A list strictly descending by key is sorted into its reverse. *)
Lemma insert_by_last x l :
  Forall (fun y => key y < key x) l -> insert_by key x l = l ++ [x].
Proof.
  induction 1 as [|y l Hy _ IH]; simpl; trivial.
  now rewrite (proj2 (ltb_lt _ _) Hy), IH.
Qed.

Lemma sort_by_descending l :
  StronglySorted (fun a b => key b < key a) l -> sort_by key l = rev l.
Proof.
  induction 1 as [|x l _ IH F]; simpl; trivial.
  rewrite IH. apply insert_by_last.
  rewrite Forall_forall in *. intros y Hy. apply F. now apply in_rev.
Qed.

(** The decorated sort of [py_sorted] is the sort by that key. *)
Lemma insert_keyed_decorate x l :
  insert_keyed (key x) x (map (fun y => (key y, y)) l)
  = map (fun y => (key y, y)) (insert_by key x l).
Proof.
  induction l as [|y l IH]; simpl; trivial.
  destruct (ltb (key y) (key x)); simpl; now rewrite ?IH.
Qed.

Lemma sort_keyed_decorate l :
  sort_keyed (combine (map key l) l)
  = map (fun y => (key y, y)) (sort_by key l).
Proof.
  induction l as [|x l IH]; simpl; trivial.
  now rewrite IH, insert_keyed_decorate.
Qed.
End Sorting.

Lemma sort_by_map (A B : Type) (f : A -> B) (key : B -> num) (l : list A) :
  sort_by key (map f l) = map f (sort_by (fun a => key (f a)) l).
Proof.
  assert (Hi : forall x l,
    insert_by key (f x) (map f l) = map f (insert_by (fun a => key (f a)) x l)).
  { intros x l0. induction l0 as [|y l0 IH]; simpl; trivial.
    destruct (ltb (key (f y)) (key (f x))); simpl; now rewrite ?IH. }
  induction l as [|x l IH]; simpl; trivial.
  now rewrite IH, Hi.
Qed.

Lemma mapM_ok (A B : Type) (f : A -> M B) (g : A -> B) (l : list A) :
  (forall a, In a l -> f a = Ok (g a)) -> mapM f l = Ok (map g l).
Proof.
  induction l as [|a l IH]; simpl; intro H; trivial.
  rewrite (H a (or_introl eq_refl)). simpl.
  rewrite IH by (intros; apply H; now right). reflexivity.
Qed.

Lemma idx_nth (A : Type) (l : list A) (i : nat) (d : A) :
  (i < length l)%nat -> idx l i = Ok (nth i l d).
Proof.
  intro H. unfold idx. now rewrite (nth_error_nth' l d H).
Qed.

Lemma idx_last_score (r : row) : r <> [] -> idx_last r = Ok (score r).
Proof.
  intro H. destruct (exists_last H) as [r' [a ->]].
  unfold score. rewrite last_last.
  unfold idx_last. destruct (r' ++ [a]) eqn:E.
  - now destruct r'.
  - rewrite <- E. rewrite (idx_nth _ _ _ 0%Qc).
    + rewrite length_app. simpl.
      replace (length r' + 1 - 1)%nat with (length r') by lia.
      now rewrite nth_middle.
    + rewrite !length_app. simpl. lia.
Qed.

Lemma py_sorted_rows (X : list row) :
  Forall (fun r => r <> []) X ->
  py_sorted (@idx_last num) X = Ok (sort_by score X).
Proof.
  intro H. unfold py_sorted.
  rewrite (mapM_ok _ _ _ score).
  - simpl. rewrite sort_keyed_decorate, map_map. simpl. now rewrite map_id.
  - intros r Hr. apply idx_last_score. rewrite Forall_forall in H. now apply H.
Qed.

(** ** The greedy selection *)

Section Select.
Variable A : Type.
Variable sup : A -> A -> bool.

Local Abbreviation keep h := (filter (fun x => negb (sup h x))).

Lemma select_In fuel : forall l x, In x (select sup fuel l) -> In x l.
Proof.
  induction fuel as [|fuel IH]; intros [|h rest] x; simpl; trivial;
    try contradiction.
  intros [->|H]; [now left|right].
  apply IH in H. now apply filter_In in H.
Qed.

Lemma select_length fuel :
  forall l, (length (select sup fuel l) <= length l)%nat.
Proof.
  induction fuel as [|fuel IH]; intros [|h rest]; simpl; try lia.
  specialize (IH (keep h rest)).
  pose proof (filter_length_le (fun x => negb (sup h x)) rest). lia.
Qed.

Lemma filter_StronglySorted (R : A -> A -> Prop) (f : A -> bool) l :
  StronglySorted R l -> StronglySorted R (filter f l).
Proof.
  induction 1 as [|a l _ IH F]; simpl; [constructor|].
  destruct (f a); trivial. constructor; trivial.
  rewrite Forall_forall in *. intros x Hx. apply filter_In in Hx.
  now apply F.
Qed.

(** The selection keeps the order of the list. *)
Lemma select_StronglySorted (R : A -> A -> Prop) fuel :
  forall l, StronglySorted R l -> StronglySorted R (select sup fuel l).
Proof.
  induction fuel as [|fuel IH]; intros [|h rest] H; simpl;
    try constructor.
  - apply IH. apply filter_StronglySorted. now inversion H.
  - inversion H as [|? ? _ F]; subst.
    rewrite Forall_forall in *. intros x Hx.
    apply select_In in Hx. apply filter_In in Hx. now apply F.
Qed.

(** An element that is not selected is suppressed by a selected one. *)
Lemma select_covers fuel :
  forall l x,
    (length l <= fuel)%nat -> In x l ->
    In x (select sup fuel l)
    \/ exists h, In h (select sup fuel l) /\ sup h x = true.
Proof.
  induction fuel as [|fuel IH]; intros [|h rest] x Hl Hx; simpl in *;
    try contradiction; try lia.
  destruct Hx as [->|Hx]; [now left; left|].
  destruct (sup h x) eqn:E.
  - right. exists h. split; [now left | assumption].
  - destruct (IH (keep h rest) x) as [H|[h' [H1 H2]]].
    + pose proof (filter_length_le (fun x => negb (sup h x)) rest). lia.
    + apply filter_In. now rewrite E.
    + left. now right.
    + right. exists h'. split; [now right | assumption].
Qed.

(** No selected element suppresses a later selected one. *)
Lemma select_independent fuel :
  forall l,
    ForallOrdPairs (fun a b => sup a b = false) (select sup fuel l).
Proof.
  induction fuel as [|fuel IH]; intros [|h rest]; simpl;
    try constructor.
  - rewrite Forall_forall. intros x Hx.
    apply select_In in Hx. apply filter_In in Hx.
    destruct Hx as [_ Hx]. now destruct (sup h x).
  - apply IH.
Qed.

(** Where nothing suppresses anything, everything is selected. *)
Lemma select_all fuel :
  forall l,
    (length l <= fuel)%nat ->
    ForallOrdPairs (fun a b => sup a b = false) l ->
    select sup fuel l = l.
Proof.
  induction fuel as [|fuel IH]; intros [|h rest] Hl H; simpl in *;
    trivial; try lia.
  inversion H as [|? ? F H']; subst.
  assert (E : keep h rest = rest).
  { clear - F. induction F as [|x l Hx _ IH]; simpl; trivial.
    now rewrite Hx, IH. }
  rewrite E. f_equal. apply IH; [lia | assumption].
Qed.
End Select.

Lemma select_map (A B : Type) (f : A -> B) (supA : A -> A -> bool)
    (supB : B -> B -> bool) :
  (forall a b, supA a b = supB (f a) (f b)) ->
  forall fuel l, map f (select supA fuel l) = select supB fuel (map f l).
Proof.
  intro H. induction fuel as [|fuel IH]; intros [|h rest]; simpl; trivial.
  f_equal. rewrite IH. f_equal.
  clear IH. induction rest as [|x rest IHr]; simpl; trivial.
  rewrite <- H. destruct (supA h x); simpl; now rewrite IHr.
Qed.

Lemma ForallOrdPairs_perm (A : Type) (R : A -> A -> Prop) (l l' : list A) :
  (forall a b, R a b -> R b a) ->
  Permutation l l' -> ForallOrdPairs R l -> ForallOrdPairs R l'.
Proof.
  intro Hs. induction 1 as [|x l l' HP IH|x y l|l l' l'' _ IH1 _ IH2];
    intro H; auto.
  - inversion H; subst. constructor; auto.
    eapply Permutation_Forall; eassumption.
  - inversion H as [|? ? Fy H']; subst.
    inversion H' as [|? ? Fx H'']; subst.
    inversion Fy; subst.
    constructor; [constructor; auto|]. constructor; auto.
Qed.

(** ** The loop of compute_nms *)

Lemma np_where_from_bounds (mask : list bool) :
  forall i p, In p (np_where_from i mask) ->
              (i <= p < i + length mask)%nat.
Proof.
  induction mask as [|b mask IH]; intros i p; simpl; [contradiction|].
  destruct b; simpl; [intros [<-|H]|intro H]; try lia;
    apply IH in H; lia.
Qed.

Lemma existsb_eqb_false (i : nat) (obj : list nat) :
  (forall p, In p obj -> i <> p) -> existsb (Nat.eqb i) obj = false.
Proof.
  intro H. induction obj as [|p obj IH]; simpl; trivial.
  rewrite IH by (intros; apply H; now right).
  destruct (Nat.eqb_spec i p) as [E|_]; trivial.
  exfalso. apply (H p); [now left | assumption].
Qed.

Lemma delete_from_skip (A : Type) (arr : list A) :
  forall i p obj, (p < i)%nat ->
                  delete_from i arr (p :: obj) = delete_from i arr obj.
Proof.
  induction arr as [|a arr IH]; intros i p obj H; simpl; trivial.
  destruct (Nat.eqb_spec i p) as [E|_]; [lia|]. simpl.
  now rewrite !(IH (S i) p obj) by lia.
Qed.

(** Deleting the positions found by [np.where] is filtering by the mask. *)
Lemma delete_from_where (A : Type) (f : A -> bool) (arr : list A) :
  forall i, delete_from i arr (np_where_from i (map f arr))
            = filter (fun a => negb (f a)) arr.
Proof.
  induction arr as [|a arr IH]; intro i; simpl; trivial.
  destruct (f a); simpl.
  - rewrite Nat.eqb_refl. simpl.
    rewrite delete_from_skip by lia. apply IH.
  - rewrite existsb_eqb_false.
    + now rewrite IH.
    + intros p Hp. apply np_where_from_bounds in Hp. lia.
Qed.

Lemma np_delete_where (A : Type) (f : A -> bool) (arr : list A) :
  np_delete arr (np_where (map f arr)) = Ok (filter (fun a => negb (f a)) arr).
Proof.
  unfold np_delete, np_where.
  replace (forallb _ _) with true.
  - now rewrite delete_from_where.
  - symmetry. apply forallb_forall. intros p Hp.
    apply np_where_from_bounds in Hp. rewrite length_map in Hp.
    apply Nat.ltb_lt. lia.
Qed.

Lemma delete_from_last (A : Type) (l : list A) (x : A) :
  forall i, delete_from i (l ++ [x]) [(i + length l)%nat] = l.
Proof.
  induction l as [|a l IH]; intro i; simpl.
  - now rewrite Nat.add_0_r, Nat.eqb_refl.
  - destruct (Nat.eqb_spec i (i + S (length l))) as [E|_]; [lia|]. simpl.
    replace (i + S (length l))%nat with (S i + length l)%nat by lia.
    now rewrite IH.
Qed.

Lemma np_delete_last (A : Type) (l : list A) (x : A) :
  np_delete (l ++ [x]) [(length (l ++ [x]) - 1)%nat] = Ok l.
Proof.
  unfold np_delete. rewrite length_app. simpl.
  replace (length l + 1 - 1)%nat with (0 + length l)%nat by lia.
  rewrite delete_from_last.
  destruct (Nat.ltb_spec (0 + length l) (length l + 1)) as [_|E]; [|lia].
  reflexivity.
Qed.

Lemma idx_app_last (A : Type) (l : list A) (x : A) :
  idx (l ++ [x]) (length (l ++ [x]) - 1) = Ok x.
Proof.
  rewrite length_app. simpl.
  replace (length l + 1 - 1)%nat with (length l) by lia.
  unfold idx. now rewrite nth_error_app2, Nat.sub_diag by lia.
Qed.

Lemma idx_last_app (A : Type) (l : list A) (x : A) :
  idx_last (l ++ [x]) = Ok x.
Proof.
  unfold idx_last. destruct (l ++ [x]) eqn:E.
  - now destruct l.
  - rewrite <- E. apply idx_app_last.
Qed.

Lemma nth_wide (sd : list row) (i : nat) :
  Forall wide sd -> (i < length sd)%nat -> wide (nth i sd []).
Proof.
  intros H Hi. rewrite Forall_forall in H. apply H. now apply nth_In.
Qed.

(** One pass: the last index is accepted, and the indices before it that
    it suppresses are removed. *)
Lemma nms_iter_spec (sd : list row) (t : num) (l : list nat) (h : nat)
    (res : list nat) :
  Forall wide sd ->
  Forall (fun i => (i < length sd)%nat) (l ++ [h]) ->
  nms_iter sd t (l ++ [h]) res
  = Ok (filter (fun i => negb (sup_idx sd t h i)) l, res ++ [h]).
Proof.
  intros Hw Hb. unfold nms_iter.
  rewrite idx_app_last. simpl.
  rewrite removelast_last.
  apply Forall_app in Hb. destruct Hb as [Hl Hh].
  inversion Hh as [|? ? Hh' _]; subst.
  rewrite Forall_forall in Hl.
  rewrite (mapM_ok _ _ _ (fun i => nth i sd [])) by
    (intros i Hi; apply idx_nth; now apply Hl).
  simpl.
  rewrite (mapM_ok _ _ _ (iou (nth h sd []))).
  - simpl. rewrite np_delete_last. simpl.
    rewrite !map_map. rewrite np_delete_where. reflexivity.
  - intros b Hb. rewrite idx_last_app. cbn [bind].
    rewrite (idx_nth _ sd h [] Hh'). cbn [bind].
    apply in_map_iff in Hb. destruct Hb as [i [<- Hi]].
    apply get_iou_iou.
    + pose proof (nth_wide sd h Hw Hh') as W. unfold wide in W. lia.
    + pose proof (nth_wide sd i Hw (Hl i Hi)) as W. unfold wide in W. lia.
Qed.

(** The loop accepts exactly the greedy selection from the indices read
    from the last to the first, and never runs out of passes. *)
Lemma nms_while_spec (sd : list row) (t : num) :
  Forall wide sd ->
  forall fuel l res,
    (length l <= fuel)%nat ->
    Forall (fun i => (i < length sd)%nat) l ->
    nms_while fuel sd t (rev l) res
    = Ok (res ++ select (sup_idx sd t) fuel l).
Proof.
  intro Hw. induction fuel as [|fuel IH]; intros [|h rest] res Hl Hb;
    simpl in Hl; try lia.
  - simpl. now rewrite app_nil_r.
  - simpl. now rewrite app_nil_r.
  - cbn [rev nms_while].
    destruct (Nat.ltb_spec 0 (length (rev rest ++ [h]))) as [_|E];
      [|rewrite length_app in E; simpl in E; lia].
    rewrite nms_iter_spec; trivial.
    + cbn [bind fst snd]. rewrite filter_rev, IH.
      * rewrite <- app_assoc. reflexivity.
      * pose proof (filter_length_le
                      (fun i => negb (sup_idx sd t h i)) rest). lia.
      * inversion Hb; subst.
        rewrite Forall_forall in *. intros i Hi.
        apply filter_In in Hi. intuition.
    + inversion Hb; subst. apply Forall_app. split.
      * rewrite Forall_forall in *. intros i Hi. apply in_rev in Hi. auto.
      * now constructor.
Qed.

Lemma map_nth_seq0 (A : Type) (d : A) (l : list A) :
  map (fun i => nth i l d) (seq 0 (length l)) = l.
Proof.
  induction l as [|a l IH]; simpl; trivial.
  f_equal. rewrite <- seq_shift, map_map. exact IH.
Qed.

Lemma bind_bind_ok (A B C : Type) (m : M A) (f : A -> M B) (k : B -> M C)
    (r : B) :
  (a <- m ;; f a) = Ok r -> (a <- m ;; b <- f a ;; k b) = k r.
Proof.
  destruct m; simpl; [intros ->; reflexivity | discriminate].
Qed.

Lemma col_isub_xywh (fr : list row) :
  Forall wide fr ->
  (fr1 <- col_isub fr 2 0 ;; col_isub fr1 3 1) = Ok (map to_xywh fr).
Proof.
  intro H. unfold col_isub.
  pose (g1 := fun r : row =>
                match r with
                | a :: b :: c :: rest => a :: b :: (c - a) :: rest
                | _ => r
                end).
  pose (g2 := fun r : row =>
                match r with
                | a :: b :: c :: d :: rest => a :: b :: c :: (d - b) :: rest
                | _ => r
                end).
  rewrite (mapM_ok _ _ _ g1).
  - cbn [bind]. rewrite (mapM_ok _ _ _ g2).
    + rewrite map_map. f_equal. apply map_ext_in. intros r Hr.
      rewrite Forall_forall in H. specialize (H r Hr). unfold wide in H.
      destruct r as [|a [|b [|c [|d r]]]]; simpl in H; try lia. reflexivity.
    + intros r Hr. apply in_map_iff in Hr. destruct Hr as [r0 [<- Hr]].
      rewrite Forall_forall in H. specialize (H r0 Hr). unfold wide in H.
      destruct r0 as [|a [|b [|c [|d r]]]]; simpl in H; try lia. reflexivity.
  - intros r Hr.
    rewrite Forall_forall in H. specialize (H r Hr). unfold wide in H.
    destruct r as [|a [|b [|c [|d r]]]]; simpl in H; try lia. reflexivity.
Qed.

(** On a non-empty array of wide rows [compute_nms] raises nothing, leaves
    [data] as it is and stores the greedy selection in [final_res]. *)
Lemma compute_nms_spec (X : list row) (fr0 : option (list row)) (t : num) :
  X <> [] -> Forall wide X ->
  compute_nms (mk_nms X fr0) t
  = Ok (RetNone, mk_nms X (Some (nms_rows t X))).
Proof.
  intros Hne Hw. unfold compute_nms, nms_rows. cbn [data].
  destruct X as [|r0 X0] eqn:EX; [congruence|]. rewrite <- EX in *.
  replace (length X =? 0)%nat with false
    by (rewrite EX; reflexivity).
  rewrite py_sorted_rows.
  2:{ eapply Forall_impl; [|exact Hw]. intros r W E. subst r.
      unfold wide in W. simpl in W. lia. }
  cbn [bind].
  set (sd := sort_by score X).
  assert (Hsd : Forall wide sd).
  { eapply Permutation_Forall; [|exact Hw].
    symmetry. apply sort_by_perm. }
  assert (Hlen : length sd = length X) by apply sort_by_length.
  rewrite <- (rev_involutive (seq 0 (length sd))) at 2.
  rewrite length_seq.
  assert (Hb : Forall (fun i => (i < length sd)%nat) (rev (seq 0 (length sd)))).
  { rewrite Forall_forall. intros i Hi. apply in_rev, in_seq in Hi. lia. }
  rewrite (nms_while_spec sd t Hsd); trivial.
  2:{ rewrite length_rev, length_seq. apply le_n. }
  cbn [bind app].
  rewrite (mapM_ok _ _ _ (fun i => nth i sd [])).
  2:{ intros i Hi. apply idx_nth. apply select_In in Hi.
      rewrite Forall_forall in Hb. now apply Hb. }
  cbn [bind].
  rewrite (select_map _ _ (fun i => nth i sd []) (sup_idx sd t) (sup t))
    by reflexivity.
  rewrite map_rev, map_nth_seq0.
  assert (Hf : Forall wide (select (sup t) (length sd) (rev sd))).
  { rewrite Forall_forall in *. intros r Hr. apply select_In in Hr.
    apply in_rev in Hr. now apply Hsd. }
  rewrite (bind_bind_ok _ _ _ _ _ _ _ (col_isub_xywh _ Hf)).
  now rewrite Hlen.
Qed.

(** ** Ingestion of accepted records *)

Lemma leb_gt (a b : num) : leb a b = false <-> b < a.
Proof.
  split; intro H.
  - apply Qcnot_le_lt. intro L. apply leb_le in L. congruence.
  - destruct (leb a b) eqn:E; [|reflexivity].
    apply leb_le in E. exfalso. exact (Qclt_not_le _ _ H E).
Qed.

Lemma add_sub (a b : Qc) : a + b - b = a.
Proof. ring. Qed.

Lemma accepted_length (l : list num) : accepted l -> length l = 5%nat.
Proof. intros (x & y & w & h & s & -> & _). reflexivity. Qed.

Lemma accepted_round_trip (l : list num) :
  accepted l -> to_xywh (to_corner l) = l.
Proof.
  intros (x & y & w & h & s & -> & _). simpl.
  now rewrite !add_sub.
Qed.

Lemma accepted_score (l : list num) :
  accepted l -> score (to_corner l) = score l.
Proof. intros (x & y & w & h & s & -> & _). reflexivity. Qed.

Lemma accepted_wide (l : list num) : accepted l -> wide (to_corner l).
Proof. intros (x & y & w & h & s & -> & _). unfold wide. simpl. lia. Qed.

Lemma clean_line_accepted (l : list num) :
  accepted l -> clean_line l = Ok (to_corner l).
Proof.
  intros (x & y & w & h & s & -> & Hx & Hy & Hw & Hh & Hs & Hs1).
  unfold clean_line. cbn [clean_fields]. unfold weird.
  rewrite (proj2 (ltb_ge x 0) Hx), (proj2 (ltb_ge y 0) Hy).
  rewrite (proj2 (ltb_ge w 0) (Qclt_le_weak _ _ Hw)).
  rewrite (proj2 (ltb_ge h 0) (Qclt_le_weak _ _ Hh)).
  rewrite (proj2 (leb_gt w 0) Hw), (proj2 (leb_gt h 0) Hh).
  rewrite (proj2 (ltb_ge s 0) Hs), (proj2 (gtb_le s 1) Hs1).
  reflexivity.
Qed.

Lemma get_data_accepted (self : nms) (lines : list (list num)) :
  Forall accepted lines ->
  get_data self lines = Ok (mk_nms (map to_corner lines) (final_res self)).
Proof.
  intro H. unfold get_data.
  rewrite (mapM_ok _ _ _ to_corner).
  2:{ intros l Hl. apply clean_line_accepted.
      rewrite Forall_forall in H. now apply H. }
  cbn [bind]. unfold np_array.
  destruct lines as [|l lines]; [reflexivity|]. cbn [map].
  replace (forallb _ _) with true; [reflexivity|].
  symmetry. apply forallb_forall. intros r Hr.
  apply in_map_iff in Hr. destruct Hr as [l' [<- Hl']].
  inversion H as [|? ? Hl Hrest]; subst.
  rewrite Forall_forall in Hrest. specialize (Hrest l' Hl').
  destruct Hl as (x & y & w & h & s & -> & _).
  destruct Hrest as (x' & y' & w' & h' & s' & -> & _). reflexivity.
Qed.

Lemma insert_by_ext (A : Type) (k1 k2 : A -> num) (x : A) (l : list A) :
  k1 x = k2 x -> (forall a, In a l -> k1 a = k2 a) ->
  insert_by k1 x l = insert_by k2 x l.
Proof.
  intros Hx. induction l as [|y l IH]; intro H; simpl; trivial.
  rewrite Hx, (H y) by now left.
  destruct (ltb (k2 y) (k2 x)); trivial.
  f_equal. apply IH. intros; apply H; now right.
Qed.

Lemma sort_by_ext (A : Type) (k1 k2 : A -> num) (l : list A) :
  (forall a, In a l -> k1 a = k2 a) -> sort_by k1 l = sort_by k2 l.
Proof.
  induction l as [|x l IH]; intro H; simpl; trivial.
  rewrite IH by (intros; apply H; now right).
  apply insert_by_ext; [apply H; now left|].
  intros a Ha. apply H. right.
  eapply Permutation_in; [apply sort_by_perm | exact Ha].
Qed.

(** On accepted records the whole run raises nothing and returns the
    greedy selection, as records in their input form. *)
Lemma suppress_spec (lines : list (list num)) (t : num) :
  Forall accepted lines -> suppress lines t = Ok (survivors t lines).
Proof.
  intro H. unfold suppress, survivors.
  rewrite get_data_accepted by assumption. cbn [bind final_res].
  destruct lines as [|l0 lines0] eqn:E; [reflexivity|]. rewrite <- E in *.
  rewrite compute_nms_spec.
  - cbn [bind result_of fst snd final_res]. unfold nms_rows. f_equal.
    rewrite sort_by_map.
    rewrite (sort_by_ext _ (fun a => score (to_corner a)) score).
    2:{ intros a Ha. apply accepted_score.
        rewrite Forall_forall in H. now apply H. }
    rewrite <- map_rev, length_map.
    rewrite <- (select_map _ _ to_corner (sup_line t) (sup t)) by reflexivity.
    rewrite map_map. etransitivity; [|apply map_id].
    apply map_ext_in. intros a Ha. apply accepted_round_trip.
    apply select_In, in_rev in Ha.
    rewrite Forall_forall in H. apply H.
    eapply Permutation_in; [apply sort_by_perm | exact Ha].
  - rewrite E. discriminate.
  - rewrite Forall_forall in *. intros r Hr.
    apply in_map_iff in Hr. destruct Hr as [l [<- Hl]].
    apply accepted_wide. now apply H.
Qed.

(** ** Order of the output *)

Lemma StronglySorted_snoc (A : Type) (R : A -> A -> Prop) (l : list A) (x : A) :
  StronglySorted R l -> Forall (fun y => R y x) l ->
  StronglySorted R (l ++ [x]).
Proof.
  induction 1 as [|a l _ IH F]; intro H; simpl.
  - repeat constructor.
  - inversion H; subst. constructor; [now apply IH|].
    apply Forall_app. split; [assumption | now constructor].
Qed.

Lemma StronglySorted_rev (A : Type) (R : A -> A -> Prop) (l : list A) :
  StronglySorted R l -> StronglySorted (fun a b => R b a) (rev l).
Proof.
  induction 1 as [|a l _ IH F]; simpl; [constructor|].
  apply StronglySorted_snoc; trivial.
  rewrite Forall_forall in *. intros y Hy. apply F. now apply in_rev.
Qed.

Lemma score_to_xywh (r : row) : wide r -> score (to_xywh r) = score r.
Proof.
  unfold wide. intro H.
  destruct r as [|a [|b [|c [|d [|e r]]]]]; simpl in H; try lia.
  reflexivity.
Qed.

Lemma StronglySorted_map_xywh (R : num -> num -> Prop) (l : list row) :
  Forall wide l ->
  StronglySorted (fun a b => R (score a) (score b)) l ->
  StronglySorted (fun a b => R (score a) (score b)) (map to_xywh l).
Proof.
  intros Hw H. induction H as [|a l _ IH F]; simpl; [constructor|].
  inversion Hw as [|? ? Wa Wl]; subst.
  constructor; [now apply IH|].
  rewrite Forall_forall in *. intros y Hy.
  apply in_map_iff in Hy. destruct Hy as [y0 [<- Hy0]].
  rewrite (score_to_xywh a Wa), (score_to_xywh y0 (Wl y0 Hy0)).
  now apply F.
Qed.

Lemma sorted_wide (X : list row) :
  Forall wide X -> Forall wide (rev (sort_by score X)).
Proof.
  intro H. eapply Permutation_Forall; [|exact H].
  rewrite <- Permutation_rev. symmetry. apply sort_by_perm.
Qed.

Lemma nms_rows_descending (t : num) (X : list row) :
  Forall wide X ->
  StronglySorted (fun a b => score b <= score a) (nms_rows t X).
Proof.
  intro Hw. unfold nms_rows.
  apply (StronglySorted_map_xywh (fun sa sb => sb <= sa)).
  - pose proof (sorted_wide X Hw) as Hs.
    rewrite Forall_forall in *. intros r Hr. apply select_In in Hr. auto.
  - apply select_StronglySorted.
    apply (StronglySorted_rev _ (fun a b : row => score a <= score b)).
    apply sort_by_ascending.
Qed.

(** Where no box suppresses another, every box is accepted. *)
Lemma nms_rows_all (t : num) (X : list row) :
  ForallOrdPairs (fun a b => sup t a b = false) X ->
  nms_rows t X = map to_xywh (rev (sort_by score X)).
Proof.
  intro H. unfold nms_rows. f_equal. apply select_all.
  - rewrite length_rev, sort_by_length. apply le_n.
  - apply ForallOrdPairs_perm with (l := X); trivial.
    + intros a b E. unfold sup in *. now rewrite iou_comm.
    + rewrite <- Permutation_rev. symmetry. apply sort_by_perm.
Qed.

(** ** Thresholds and re-suppression *)

Lemma filter_incl_length (A : Type) (f g : A -> bool) (l : list A) :
  (forall a, f a = true -> g a = true) ->
  (forall a, In a (filter f l) -> In a (filter g l))
  /\ (length (filter f l) <= length (filter g l))%nat.
Proof.
  intro H. split.
  - intros a Ha. apply filter_In in Ha. apply filter_In. intuition.
  - induction l as [|a l IH]; simpl; trivial.
    destruct (f a) eqn:E.
    + rewrite (H a E). simpl. lia.
    + destruct (g a); simpl; lia.
Qed.

Lemma sup_threshold_mono (t1 t2 : num) (a b : row) :
  t1 <= t2 -> sup t1 a b = false -> sup t2 a b = false.
Proof.
  unfold sup. intros H E. apply gtb_le in E. apply gtb_le.
  eapply Qcle_trans; eassumption.
Qed.

Lemma ForallOrdPairs_impl_In (A : Type) (P Q : A -> A -> Prop) (l : list A) :
  (forall a b, In a l -> In b l -> P a b -> Q a b) ->
  ForallOrdPairs P l -> ForallOrdPairs Q l.
Proof.
  intros H F. induction F as [|a l Fa _ IH]; constructor.
  - rewrite Forall_forall in *. intros b Hb.
    apply H; [now left | now right | now apply Fa].
  - apply IH. intros x y Hx Hy. apply H; now right.
Qed.

Lemma ascending_NoDup_strict (A : Type) (key : A -> num) (l : list A) :
  ascending key l -> NoDup (map key l) ->
  StronglySorted (fun a b => key a < key b) l.
Proof.
  unfold ascending. induction 1 as [|a l _ IH F]; simpl; intro N;
    [constructor|].
  inversion N as [|? ? Hn N']; subst.
  constructor; [now apply IH|].
  rewrite Forall_forall in *. intros b Hb.
  destruct (Qcle_lt_or_eq _ _ (F b Hb)) as [L|E]; trivial.
  exfalso. apply Hn. rewrite E. now apply in_map.
Qed.

Lemma survivors_In (t : num) (lines : list (list num)) (r : list num) :
  In r (survivors t lines) -> In r lines.
Proof.
  unfold survivors. intro H. apply select_In, in_rev in H.
  eapply Permutation_in; [apply sort_by_perm | exact H].
Qed.

Lemma survivors_independent (t : num) (lines : list (list num)) :
  ForallOrdPairs (fun a b => sup_line t a b = false) (survivors t lines).
Proof. apply select_independent. Qed.

Lemma sup_line_sym (t : num) (a b : list num) :
  sup_line t a b = false -> sup_line t b a = false.
Proof. unfold sup_line, sup. now rewrite iou_comm. Qed.

(** Suppressing an already independent list only reorders it. *)
Lemma survivors_of_independent (t : num) (R : list (list num)) :
  ForallOrdPairs (fun a b => sup_line t a b = false) R ->
  survivors t R = rev (sort_by score R).
Proof.
  intro H. unfold survivors. apply select_all.
  - rewrite length_rev, sort_by_length. apply le_n.
  - apply ForallOrdPairs_perm with (l := R); trivial.
    + apply sup_line_sym.
    + rewrite <- Permutation_rev. symmetry. apply sort_by_perm.
Qed.

Lemma survivors_strict (t : num) (lines : list (list num)) :
  NoDup (map score lines) ->
  StronglySorted (fun a b => score b < score a) (survivors t lines).
Proof.
  intro N. unfold survivors. apply select_StronglySorted.
  apply (StronglySorted_rev _ (fun a b : list num => score a < score b)).
  apply ascending_NoDup_strict; [apply sort_by_ascending|].
  eapply Permutation_NoDup; [|exact N].
  apply Permutation_map. symmetry. apply sort_by_perm.
Qed.

(** On at most three boxes a weaker suppression keeps at least as many. *)
Lemma select_small_mono (A : Type) (sup1 sup2 : A -> A -> bool) (l : list A) :
  (forall x y, sup2 x y = true -> sup1 x y = true) ->
  (length l <= 3)%nat ->
  (length (select sup1 (length l) l) <= length (select sup2 (length l) l))%nat.
Proof.
  intros H Hl.
  destruct l as [|a [|b [|c [|d l]]]]; simpl in Hl; try lia; simpl; try lia.
  - destruct (sup2 a b) eqn:E2; [rewrite (H _ _ E2)|];
      destruct (sup1 a b); simpl; lia.
  - pose proof (H a b) as Hab. pose proof (H a c) as Hac.
    pose proof (H b c) as Hbc.
    destruct (sup2 a b), (sup2 a c), (sup1 a b), (sup1 a c); simpl; try lia;
      try (specialize (Hab eq_refl); discriminate);
      try (specialize (Hac eq_refl); discriminate);
      destruct (sup2 b c), (sup1 b c); simpl; try lia;
      specialize (Hbc eq_refl); discriminate.
Qed.

Lemma sup_line_threshold_mono (t1 t2 : num) (a b : list num) :
  t1 <= t2 -> sup_line t2 a b = true -> sup_line t1 a b = true.
Proof.
  intros H E. unfold sup_line in *.
  destruct (sup t1 (to_corner a) (to_corner b)) eqn:E1; trivial.
  rewrite (sup_threshold_mono t1 t2 _ _ H E1) in E. discriminate.
Qed.

Lemma M_num_eqb_eq (m1 m2 : M num) : M_eqb eqb_num m1 m2 = true -> m1 = m2.
Proof.
  destruct m1 as [a1|e1], m2 as [a2|e2]; simpl; try discriminate.
  - intro H. f_equal. now apply eqb_num_eq.
  - destruct e1, e2; simpl; try discriminate; trivial.
Qed.

(** ** Order kept by the selection *)

Lemma subseq_nil_l (A : Type) (l : list A) : subseq [] l.
Proof.
  induction l; [apply subseq_nil | now apply subseq_skip].
Qed.

Lemma subseq_refl (A : Type) (l : list A) : subseq l l.
Proof.
  induction l; [apply subseq_nil | now apply subseq_keep].
Qed.

Lemma subseq_trans (A : Type) (l1 l2 l3 : list A) :
  subseq l1 l2 -> subseq l2 l3 -> subseq l1 l3.
Proof.
  intros H12 H23. revert l1 H12.
  induction H23 as [|x l2 l3 _ IH|x l2 l3 _ IH]; intros l1 H12; trivial.
  - apply subseq_skip. now apply IH.
  - inversion H12; subst.
    + apply subseq_skip. now apply IH.
    + apply subseq_keep. now apply IH.
Qed.

Lemma subseq_filter_l (A : Type) (f : A -> bool) (l : list A) :
  subseq (filter f l) l.
Proof.
  induction l as [|x l IH]; simpl; [apply subseq_nil|].
  destruct (f x); [now apply subseq_keep | now apply subseq_skip].
Qed.

Lemma subseq_filter (A : Type) (f : A -> bool) (l1 l2 : list A) :
  subseq l1 l2 -> subseq (filter f l1) (filter f l2).
Proof.
  induction 1 as [|x l1 l2 _ IH|x l1 l2 _ IH]; simpl; [apply subseq_nil| |];
    destruct (f x); trivial; [now apply subseq_skip | now apply subseq_keep].
Qed.

Lemma subseq_map (A B : Type) (f : A -> B) (l1 l2 : list A) :
  subseq l1 l2 -> subseq (map f l1) (map f l2).
Proof.
  induction 1; simpl;
    [apply subseq_nil | now apply subseq_skip | now apply subseq_keep].
Qed.

Lemma subseq_app (A : Type) (l1 l2 l3 l4 : list A) :
  subseq l1 l2 -> subseq l3 l4 -> subseq (l1 ++ l3) (l2 ++ l4).
Proof.
  intros H12 H34.
  induction H12 as [|x l1 l2 _ IH|x l1 l2 _ IH]; simpl; trivial.
  - now apply subseq_skip.
  - now apply subseq_keep.
Qed.

Lemma subseq_rev (A : Type) (l1 l2 : list A) :
  subseq l1 l2 -> subseq (rev l1) (rev l2).
Proof.
  induction 1 as [|x l1 l2 _ IH|x l1 l2 _ IH]; simpl.
  - apply subseq_nil.
  - rewrite <- (app_nil_r (rev l1)). apply subseq_app; [assumption|].
    apply subseq_nil_l.
  - apply subseq_app; [assumption | apply subseq_refl].
Qed.

(** The selection keeps the order of the list it selects from. *)
Lemma subseq_select (A : Type) (sup : A -> A -> bool) (fuel : nat) :
  forall l, subseq (select sup fuel l) l.
Proof.
  induction fuel as [|fuel IH]; intros [|h rest]; simpl;
    try apply subseq_nil_l.
  apply subseq_keep. eapply subseq_trans; [apply IH | apply subseq_filter_l].
Qed.

(** Rows of one score in the output of [compute_nms]: the survivors among
    the rows of that score, from the last of the input to the first. *)
Lemma nms_rows_ties (t : num) (X : list row) (k : num) :
  Forall wide X ->
  subseq (with_key score k (nms_rows t X))
         (map to_xywh (rev (with_key score k X))).
Proof.
  intro Hw. unfold nms_rows, with_key.
  set (A := select (sup t) (length X) (rev (sort_by score X))).
  assert (HA : subseq A (rev (sort_by score X))) by apply subseq_select.
  assert (E : filter (fun x => eqb_num (score x) k) (map to_xywh A)
              = map to_xywh (filter (fun x => eqb_num (score x) k) A)).
  { assert (Hwa : Forall wide A).
    { pose proof (sorted_wide X Hw) as Hs. rewrite Forall_forall in *.
      intros r Hr. apply select_In in Hr. auto. }
    clear HA. induction A as [|a A IH]; simpl; trivial.
    inversion Hwa as [|? ? Wa WA]; subst.
    rewrite (score_to_xywh a Wa), (IH WA).
    destruct (eqb_num (score a) k); reflexivity. }
  rewrite E. apply subseq_map.
  fold (with_key score k X). rewrite <- (sort_by_stable _ score k X).
  unfold with_key. rewrite <- filter_rev. now apply subseq_filter.
Qed.

(** * The binary64 embedding: what the code computes

    The lemmas of this part use no property of the float operations: they
    hold by the structure of the code alone. *)

Section Binary64Facts.
Import PrimFloat.
Local Open Scope float_scope.

Lemma b64_get_iou_iou (b1 b2 : B64.row) :
  (4 <= length b1)%nat -> (4 <= length b2)%nat ->
  B64.get_iou b1 b2 = Ok (B64.iou b1 b2).
Proof.
  intros H1 H2.
  destruct b1 as [|a0 [|a1 [|a2 [|a3 r1]]]]; simpl in H1; try lia.
  destruct b2 as [|c0 [|c1 [|c2 [|c3 r2]]]]; simpl in H2; try lia.
  unfold B64.get_iou, B64.iou. simpl.
  destruct (PrimFloat.ltb _ 0 || PrimFloat.ltb _ 0); reflexivity.
Qed.

Lemma b64_insert_by_perm (A : Type) (key : A -> float) (x : A) (l : list A) :
  Permutation (B64.insert_by key x l) (x :: l).
Proof.
  induction l as [|y l IH]; simpl; auto.
  destruct (PrimFloat.ltb (key y) (key x)); auto.
  rewrite IH. apply perm_swap.
Qed.

Lemma b64_sort_by_perm (A : Type) (key : A -> float) (l : list A) :
  Permutation (B64.sort_by key l) l.
Proof.
  induction l as [|x l IH]; simpl; auto.
  rewrite b64_insert_by_perm. now constructor.
Qed.

Lemma b64_sort_by_length (A : Type) (key : A -> float) (l : list A) :
  length (B64.sort_by key l) = length l.
Proof. apply Permutation_length, b64_sort_by_perm. Qed.

Lemma b64_insert_keyed_decorate (A : Type) (key : A -> float) (x : A)
    (l : list A) :
  B64.insert_keyed (key x) x (map (fun y => (key y, y)) l)
  = map (fun y => (key y, y)) (B64.insert_by key x l).
Proof.
  induction l as [|y l IH]; simpl; trivial.
  destruct (PrimFloat.ltb (key y) (key x)); simpl; now rewrite ?IH.
Qed.

Lemma b64_sort_keyed_decorate (A : Type) (key : A -> float) (l : list A) :
  B64.sort_keyed (combine (map key l) l)
  = map (fun y => (key y, y)) (B64.sort_by key l).
Proof.
  induction l as [|x l IH]; simpl; trivial.
  now rewrite IH, b64_insert_keyed_decorate.
Qed.



Lemma b64_idx_last_score (r : B64.row) :
  r <> [] -> idx_last r = Ok (B64.score r).
Proof.
  intro H. destruct (exists_last H) as [r' [a ->]].
  unfold B64.score. rewrite last_last. apply idx_last_app.
Qed.

Lemma b64_py_sorted_rows (X : list B64.row) :
  Forall (fun r => r <> []) X ->
  B64.py_sorted (@idx_last float) X = Ok (B64.sort_by B64.score X).
Proof.
  intro H. unfold B64.py_sorted.
  rewrite (mapM_ok _ _ _ B64.score).
  - simpl. rewrite b64_sort_keyed_decorate, map_map. simpl. now rewrite map_id.
  - intros r Hr. apply b64_idx_last_score.
    rewrite Forall_forall in H. now apply H.
Qed.

Lemma b64_nms_iter_spec (sd : list B64.row) (t : float) (l : list nat)
    (h : nat) (res : list nat) :
  Forall B64.wide sd ->
  Forall (fun i => (i < length sd)%nat) (l ++ [h]) ->
  B64.nms_iter sd t (l ++ [h]) res
  = Ok (filter (fun i => negb (B64.sup_idx sd t h i)) l, res ++ [h]).
Proof.
  intros Hw Hb. unfold B64.nms_iter.
  rewrite idx_app_last. simpl.
  rewrite removelast_last.
  apply Forall_app in Hb. destruct Hb as [Hl Hh].
  inversion Hh as [|? ? Hh' _]; subst.
  rewrite Forall_forall in Hl, Hw.
  rewrite (mapM_ok _ _ _ (fun i => nth i sd [])) by
    (intros i Hi; apply idx_nth; now apply Hl).
  simpl.
  rewrite (mapM_ok _ _ _ (B64.iou (nth h sd []))).
  - simpl. rewrite np_delete_last. simpl.
    rewrite !map_map. rewrite np_delete_where. reflexivity.
  - intros b Hb. rewrite idx_last_app. cbn [bind].
    rewrite (idx_nth _ sd h [] Hh'). cbn [bind].
    apply in_map_iff in Hb. destruct Hb as [i [<- Hi]].
    apply b64_get_iou_iou.
    + pose proof (Hw _ (nth_In sd [] Hh')) as W. unfold B64.wide in W. lia.
    + pose proof (Hw _ (nth_In sd [] (Hl i Hi))) as W.
      unfold B64.wide in W. lia.
Qed.

Lemma b64_nms_while_spec (sd : list B64.row) (t : float) :
  Forall B64.wide sd ->
  forall fuel l res,
    (length l <= fuel)%nat ->
    Forall (fun i => (i < length sd)%nat) l ->
    B64.nms_while fuel sd t (rev l) res
    = Ok (res ++ select (B64.sup_idx sd t) fuel l).
Proof.
  intro Hw. induction fuel as [|fuel IH]; intros [|h rest] res Hl Hb;
    simpl in Hl; try lia.
  - simpl. now rewrite app_nil_r.
  - simpl. now rewrite app_nil_r.
  - cbn [rev B64.nms_while].
    destruct (Nat.ltb_spec 0 (length (rev rest ++ [h]))) as [_|E];
      [|rewrite length_app in E; simpl in E; lia].
    rewrite b64_nms_iter_spec; trivial.
    + cbn [bind fst snd]. rewrite filter_rev, IH.
      * rewrite <- app_assoc. reflexivity.
      * pose proof (filter_length_le
                      (fun i => negb (B64.sup_idx sd t h i)) rest). lia.
      * inversion Hb; subst.
        rewrite Forall_forall in *. intros i Hi.
        apply filter_In in Hi. intuition.
    + inversion Hb; subst. apply Forall_app. split.
      * rewrite Forall_forall in *. intros i Hi. apply in_rev in Hi. auto.
      * now constructor.
Qed.

Lemma b64_col_isub_xywh (fr : list B64.row) :
  Forall B64.wide fr ->
  (fr1 <- B64.col_isub fr 2 0 ;; B64.col_isub fr1 3 1)
  = Ok (map B64.to_xywh fr).
Proof.
  intro H. unfold B64.col_isub.
  pose (g1 := fun r : B64.row =>
                match r with
                | a :: b :: c :: rest => a :: b :: (c - a) :: rest
                | _ => r
                end).
  pose (g2 := fun r : B64.row =>
                match r with
                | a :: b :: c :: d :: rest => a :: b :: c :: (d - b) :: rest
                | _ => r
                end).
  rewrite (mapM_ok _ _ _ g1).
  - cbn [bind]. rewrite (mapM_ok _ _ _ g2).
    + rewrite map_map. f_equal. apply map_ext_in. intros r Hr.
      rewrite Forall_forall in H. specialize (H r Hr). unfold B64.wide in H.
      destruct r as [|a [|b [|c [|d r]]]]; simpl in H; try lia. reflexivity.
    + intros r Hr. apply in_map_iff in Hr. destruct Hr as [r0 [<- Hr]].
      rewrite Forall_forall in H. specialize (H r0 Hr). unfold B64.wide in H.
      destruct r0 as [|a [|b [|c [|d r]]]]; simpl in H; try lia. reflexivity.
  - intros r Hr.
    rewrite Forall_forall in H. specialize (H r Hr). unfold B64.wide in H.
    destruct r as [|a [|b [|c [|d r]]]]; simpl in H; try lia. reflexivity.
Qed.

(** On a non-empty array of wide rows [compute_nms] raises nothing, leaves
    [data] as it is and stores the greedy selection in [final_res]. *)
Lemma b64_compute_nms_spec (X : list B64.row) (fr0 : option (list B64.row))
    (t : float) :
  X <> [] -> Forall B64.wide X ->
  B64.compute_nms (B64.mk_nms X fr0) t
  = Ok (RetNone, B64.mk_nms X (Some (B64.nms_rows t X))).
Proof.
  intros Hne Hw. unfold B64.compute_nms, B64.nms_rows. cbn [B64.data].
  destruct X as [|r0 X0] eqn:EX; [congruence|]. rewrite <- EX in *.
  replace (length X =? 0)%nat with false
    by (rewrite EX; reflexivity).
  rewrite b64_py_sorted_rows.
  2:{ eapply Forall_impl; [|exact Hw]. intros r W E. subst r.
      unfold B64.wide in W. simpl in W. lia. }
  cbn [bind].
  set (sd := B64.sort_by B64.score X).
  assert (Hsd : Forall B64.wide sd).
  { eapply Permutation_Forall; [|exact Hw].
    symmetry. apply b64_sort_by_perm. }
  assert (Hlen : length sd = length X) by apply b64_sort_by_length.
  rewrite <- (rev_involutive (seq 0 (length sd))) at 2.
  rewrite length_seq.
  assert (Hb : Forall (fun i => (i < length sd)%nat)
                 (rev (seq 0 (length sd)))).
  { rewrite Forall_forall. intros i Hi. apply in_rev, in_seq in Hi. lia. }
  rewrite (b64_nms_while_spec sd t Hsd); trivial.
  2:{ rewrite length_rev, length_seq. apply le_n. }
  cbn [bind app].
  rewrite (mapM_ok _ _ _ (fun i => nth i sd [])).
  2:{ intros i Hi. apply idx_nth. apply select_In in Hi.
      rewrite Forall_forall in Hb. now apply Hb. }
  cbn [bind].
  rewrite (select_map _ _ (fun i => nth i sd []) (B64.sup_idx sd t)
             (B64.sup t)) by reflexivity.
  rewrite map_rev, map_nth_seq0.
  assert (Hf : Forall B64.wide (select (B64.sup t) (length sd) (rev sd))).
  { rewrite Forall_forall in *. intros r Hr. apply select_In in Hr.
    apply in_rev in Hr. now apply Hsd. }
  rewrite (bind_bind_ok _ _ _ _ _ _ _ (b64_col_isub_xywh _ Hf)).
  now rewrite Hlen.
Qed.












End Binary64Facts.

(** * The concrete scenario of the specification *)

Example ex_scenario :
  suppress [[of_Z 0; of_Z 0; of_Z 10; of_Z 10; frac 9 10];
            [of_Z 1; of_Z 1; of_Z 10; of_Z 10; frac 8 10];
            [of_Z 50; of_Z 50; of_Z 10; of_Z 10; frac 95 100]] (frac 1 2)
  = Ok [[of_Z 50; of_Z 50; of_Z 10; of_Z 10; frac 95 100];
        [of_Z 0; of_Z 0; of_Z 10; of_Z 10; frac 9 10]].
Proof. by_evaluation. Qed.

(** * The claims *)

(** ** Ingestion *)

(** C1 (the code departs from the claim).  The record (-1, 0, 10, 10, 0.5)
    is not dropped by [get_data]: only its negative field is skipped, the
    four fields left are shifted into the places of x, y, w and h, and the
    row (0, 10, 10, 10.5) enters the ingested collection; [compute_nms] then
    outputs the box (0, 10, 10, 0.5). *)
Theorem get_data_keeps_negative_x_record :
  (self <- get_data (mk_nms [] None)
             [[of_Z (-1); of_Z 0; of_Z 10; of_Z 10; frac 1 2]] ;;
   Ok (data self))
  = Ok [[of_Z 0; of_Z 10; of_Z 10; frac 21 2]]
  /\ suppress [[of_Z (-1); of_Z 0; of_Z 10; of_Z 10; frac 1 2]] (frac 1 2)
     = Ok [[of_Z 0; of_Z 10; of_Z 10; frac 1 2]].
Proof.
  split; by_evaluation.
Qed.

(** ** get_iou *)

(** C6.  When the intersection width [ix2 - ix1] or the intersection
    height [iy2 - iy1] of two boxes is negative, [get_iou] returns exactly
    0: the early return of line 126, before any area or quotient. *)
Theorem get_iou_disjoint (x1 y1 x2 y2 x1' y1' x2' y2' : num) (r r' : row) :
  py_min x2 x2' - py_max x1 x1' < 0 \/ py_min y2 y2' - py_max y1 y1' < 0 ->
  get_iou (x1 :: y1 :: x2 :: y2 :: r) (x1' :: y1' :: x2' :: y2' :: r') = Ok 0.
Proof.
  intro H. unfold get_iou. cbn [idx nth_error bind].
  destruct H as [H|H]; apply ltb_lt in H; rewrite H; trivial.
  now rewrite orb_true_r.
Qed.

(** Two boxes fifty units apart. *)
Lemma get_iou_disjoint_witness :
  get_iou [of_Z 0; of_Z 0; of_Z 10; of_Z 10; frac 9 10]
          [of_Z 50; of_Z 50; of_Z 60; of_Z 60; frac 8 10] = Ok 0.
Proof.
  apply get_iou_disjoint. left. vm_compute. reflexivity.
Defined.

(** C7.  When neither the intersection width nor the intersection height
    is negative, [get_iou] returns
    [area_intersect / (area_b1 + area_b2 - area_intersect + 1e-5)];
    the epsilon is positive, so when the union area is exactly zero the
    divisor is the epsilon itself and is not zero. *)
Theorem get_iou_intersecting (x1 y1 x2 y2 x1' y1' x2' y2' : num) (r r' : row) :
  let width := py_min x2 x2' - py_max x1 x1' in
  let height := py_min y2 y2' - py_max y1 y1' in
  let area_intersect := width * height in
  let area_b1 := (x2 - x1) * (y2 - y1) in
  let area_b2 := (x2' - x1') * (y2' - y1') in
  let total_area := area_b1 + area_b2 - area_intersect in
  0 <= width -> 0 <= height ->
  get_iou (x1 :: y1 :: x2 :: y2 :: r) (x1' :: y1' :: x2' :: y2' :: r')
  = Ok (area_intersect / (total_area + epsilon))
  /\ 0 < epsilon
  /\ (total_area = 0 ->
      total_area + epsilon = epsilon /\ total_area + epsilon <> 0).
Proof.
  intros width height area_intersect area_b1 area_b2 total_area Hw Hh.
  split; [|split].
  - unfold get_iou. cbn [idx nth_error bind].
    fold width height.
    rewrite (proj2 (ltb_ge width 0) Hw), (proj2 (ltb_ge height 0) Hh).
    reflexivity.
  - apply ltb_lt. vm_compute. reflexivity.
  - intro E. rewrite E. split.
    + apply Qcplus_0_l.
    + rewrite Qcplus_0_l. intro E0.
      assert (L : ltb 0 epsilon = true) by (vm_compute; reflexivity).
      rewrite E0, ltb_irrefl in L. discriminate.
Qed.

(** Two copies of a ten by ten box: 100 / (100 + 1e-5). *)
Lemma get_iou_intersecting_witness :
  get_iou [of_Z 0; of_Z 0; of_Z 10; of_Z 10; frac 9 10]
          [of_Z 0; of_Z 0; of_Z 10; of_Z 10; frac 8 10]
  = Ok (frac 10000000 10000001).
Proof.
  refine (eq_trans (proj1 (get_iou_intersecting
            (of_Z 0) (of_Z 0) (of_Z 10) (of_Z 10)
            (of_Z 0) (of_Z 0) (of_Z 10) (of_Z 10)
            [frac 9 10] [frac 8 10] _ _)) _).
  - apply ltb_ge. vm_compute. reflexivity.
  - apply ltb_ge. vm_compute. reflexivity.
  - apply M_num_eqb_eq. vm_compute. reflexivity.
Defined.

(** ** compute_nms *)

(** C9.  On an array of zero boxes [compute_nms] raises nothing: it takes
    the early exit of line 189, returns the empty list and leaves the
    object as it was. *)
Theorem compute_nms_empty (fr0 : option (list row)) (t : num) :
  compute_nms (mk_nms [] fr0) t = Ok (RetEmptyList, mk_nms [] fr0)
  /\ result_of (RetEmptyList, mk_nms [] fr0) = []
  /\ suppress [] t = Ok [].
Proof.
  repeat split.
Qed.

(** C3.  On a non-empty collection [compute_nms] sorts the rows by
    ascending score, accepts again and again the last index that remains,
    and stores the accepted boxes in acceptance order: [final_res] is the
    greedy selection from the sorted rows read from the last to the first,
    so the scores never increase along the output. *)
Theorem compute_nms_highest_first (X : list row) (fr0 : option (list row))
    (t : num) :
  X <> [] -> Forall wide X ->
  exists out,
    compute_nms (mk_nms X fr0) t = Ok (RetNone, mk_nms X (Some out))
    /\ py_sorted (@idx_last num) X = Ok (sort_by score X)
    /\ ascending score (sort_by score X)
    /\ out = map to_xywh (select (sup t) (length X) (rev (sort_by score X)))
    /\ StronglySorted (fun a b => score b <= score a) out.
Proof.
  intros Hne Hw. exists (nms_rows t X). repeat split.
  - now apply compute_nms_spec.
  - apply py_sorted_rows. eapply Forall_impl; [|exact Hw].
    intros r W E. subst r. unfold wide in W. simpl in W. lia.
  - apply sort_by_ascending.
  - now apply nms_rows_descending.
Qed.

(** Two disjoint boxes, the second with the higher score. *)
Lemma compute_nms_highest_first_witness :
  exists out,
    compute_nms
      (mk_nms [[of_Z 0; of_Z 0; of_Z 10; of_Z 10; frac 9 10];
               [of_Z 50; of_Z 50; of_Z 60; of_Z 60; frac 95 100]] None)
      (frac 1 2)
    = Ok (RetNone,
          mk_nms [[of_Z 0; of_Z 0; of_Z 10; of_Z 10; frac 9 10];
                  [of_Z 50; of_Z 50; of_Z 60; of_Z 60; frac 95 100]]
                 (Some out))
    /\ StronglySorted (fun a b => score b <= score a) out.
Proof.
  destruct (compute_nms_highest_first
              [[of_Z 0; of_Z 0; of_Z 10; of_Z 10; frac 9 10];
               [of_Z 50; of_Z 50; of_Z 60; of_Z 60; frac 95 100]]
              None (frac 1 2)) as (out & H1 & _ & _ & _ & H2).
  - discriminate.
  - repeat constructor; unfold wide; simpl; lia.
  - exists out. split; assumption.
Defined.

(** C2.  [compute_nms] removes a box only when its IoU with an accepted
    box is strictly greater than the threshold: every input box is in the
    output, or some accepted box has an IoU with it above the threshold.
    In particular two boxes whose IoU is exactly the threshold both
    survive. *)
Theorem compute_nms_strict_threshold (X : list row) (fr0 : option (list row))
    (t : num) :
  X <> [] -> Forall wide X ->
  exists out,
    compute_nms (mk_nms X fr0) t = Ok (RetNone, mk_nms X (Some out))
    /\ (forall b, In b X ->
          In (to_xywh b) out
          \/ exists a v, In a X /\ In (to_xywh a) out
                         /\ get_iou a b = Ok v /\ t < v)
    /\ (forall a b, X = [a; b] -> get_iou a b = Ok t ->
          get_iou b a = Ok t
          /\ Permutation out [to_xywh a; to_xywh b]).
Proof.
  intros Hne Hw. exists (nms_rows t X). split; [|split].
  - now apply compute_nms_spec.
  - intros b Hb. unfold nms_rows.
    destruct (select_covers _ (sup t) (length X) (rev (sort_by score X)) b)
      as [H|[h [H1 H2]]].
    + rewrite length_rev, sort_by_length. apply le_n.
    + apply -> in_rev. eapply Permutation_in; [|exact Hb].
      symmetry. apply sort_by_perm.
    + left. now apply in_map.
    + right. exists h, (iou h b).
      assert (Hh : In h X).
      { apply select_In, in_rev in H1.
        eapply Permutation_in; [apply sort_by_perm | exact H1]. }
      rewrite Forall_forall in Hw. repeat split; trivial.
      * now apply in_map.
      * apply get_iou_iou.
        -- specialize (Hw h Hh). unfold wide in Hw. lia.
        -- specialize (Hw b Hb). unfold wide in Hw. lia.
      * now apply gtb_gt.
  - intros a b -> E.
    inversion Hw as [|? ? Wa Hw']; subst. inversion Hw' as [|? ? Wb _]; subst.
    unfold wide in Wa, Wb.
    rewrite get_iou_iou in E by lia. injection E as E.
    split.
    + rewrite get_iou_iou by lia. now rewrite iou_comm, E.
    + rewrite nms_rows_all.
      * change [to_xywh a; to_xywh b] with (map to_xywh [a; b]).
        apply Permutation_map. rewrite <- Permutation_rev.
        apply sort_by_perm.
      * repeat constructor. unfold sup, gtb. rewrite E. apply ltb_irrefl.
Qed.

(** Two copies of a ten by ten box, with their IoU as the threshold. *)
Lemma compute_nms_strict_threshold_witness :
  exists out,
    compute_nms
      (mk_nms [[of_Z 0; of_Z 0; of_Z 10; of_Z 10; frac 9 10];
               [of_Z 0; of_Z 0; of_Z 10; of_Z 10; frac 8 10]] None)
      (frac 10000000 10000001)
    = Ok (RetNone,
          mk_nms [[of_Z 0; of_Z 0; of_Z 10; of_Z 10; frac 9 10];
                  [of_Z 0; of_Z 0; of_Z 10; of_Z 10; frac 8 10]]
                 (Some out))
    /\ Permutation out [[of_Z 0; of_Z 0; of_Z 10; of_Z 10; frac 9 10];
                        [of_Z 0; of_Z 0; of_Z 10; of_Z 10; frac 8 10]].
Proof.
  destruct (compute_nms_strict_threshold
              [[of_Z 0; of_Z 0; of_Z 10; of_Z 10; frac 9 10];
               [of_Z 0; of_Z 0; of_Z 10; of_Z 10; frac 8 10]]
              None (frac 10000000 10000001)) as (out & H1 & _ & H2).
  - discriminate.
  - repeat constructor; unfold wide; simpl; lia.
  - exists out. split; [assumption|].
    destruct (H2 _ _ eq_refl) as [_ HP].
    + apply M_num_eqb_eq. vm_compute. reflexivity.
    + assert (E : forall r, rows_eqb [to_xywh r] [r] = true -> to_xywh r = r).
      { intros r Hr. apply rows_eqb_eq in Hr. congruence. }
      rewrite !E in HP by (vm_compute; reflexivity). exact HP.
Defined.

Section Binary64RoundTrip.
Import PrimFloat.
Local Open Scope float_scope.




End Binary64RoundTrip.

(** C10.  [compute_nms] is deterministic, equal scores included.  On a
    non-empty collection every run stores the same sequence [out],
    whatever an earlier run left in [final_res].  That sequence is fixed
    by the stability of the sort alone: from any ascending arrangement of
    the rows that keeps rows of equal score in input order the loop
    produces [out].  Ties are broken by input position: the rows of one
    score that survive come out from the last of the input to the
    first. *)
Theorem compute_nms_deterministic (X : list row) (t : num) :
  X <> [] -> Forall wide X ->
  exists out,
    (forall fr0,
        compute_nms (mk_nms X fr0) t = Ok (RetNone, mk_nms X (Some out)))
    /\ compute_nms (mk_nms X (Some out)) t
       = Ok (RetNone, mk_nms X (Some out))
    /\ (forall sd,
          ascending score sd ->
          (forall k, with_key score k sd = with_key score k X) ->
          out = map to_xywh (select (sup t) (length X) (rev sd)))
    /\ (forall k,
          subseq (with_key score k out)
                 (map to_xywh (rev (with_key score k X)))).
Proof.
  intros Hne Hw. exists (nms_rows t X).
  split; [|split; [|split]].
  - intro fr0. now apply compute_nms_spec.
  - now apply compute_nms_spec.
  - intros sd Ha Hk. unfold nms_rows. do 3 f_equal.
    symmetry. apply (ascending_stable_unique _ score); trivial.
    + apply sort_by_ascending.
    + intro k. now rewrite Hk, sort_by_stable.
  - intro k. now apply nms_rows_ties.
Qed.

(** Two disjoint boxes of equal score: the second comes out first. *)
Lemma compute_nms_deterministic_witness :
  exists out,
    compute_nms
      (mk_nms [[of_Z 0; of_Z 0; of_Z 10; of_Z 10; frac 1 2];
               [of_Z 20; of_Z 20; of_Z 30; of_Z 30; frac 1 2]] None)
      (frac 1 2)
    = Ok (RetNone,
          mk_nms [[of_Z 0; of_Z 0; of_Z 10; of_Z 10; frac 1 2];
                  [of_Z 20; of_Z 20; of_Z 30; of_Z 30; frac 1 2]] (Some out))
    /\ subseq (with_key score (frac 1 2) out)
         (map to_xywh
            (rev (with_key score (frac 1 2)
                    [[of_Z 0; of_Z 0; of_Z 10; of_Z 10; frac 1 2];
                     [of_Z 20; of_Z 20; of_Z 30; of_Z 30; frac 1 2]]))).
Proof.
  destruct (compute_nms_deterministic
              [[of_Z 0; of_Z 0; of_Z 10; of_Z 10; frac 1 2];
               [of_Z 20; of_Z 20; of_Z 30; of_Z 30; frac 1 2]] (frac 1 2))
    as (out & H1 & _ & _ & H2).
  - discriminate.
  - repeat constructor; unfold wide; simpl; lia.
  - exists out. split; [apply H1 | apply H2].
Defined.

(** C4, counterexample.  Four accepted boxes of which the best, A, overlaps
    B by 0.25, and B overlaps C and D by 0.4 each.  At threshold 0.2 A
    removes B, and C and D both survive: three boxes.  At threshold 0.3 B
    survives A and removes C and D: two boxes. *)
Lemma threshold_count_not_monotone :
  suppress [[of_Z 0; of_Z 0; of_Z 20; of_Z 20; frac 8 10];
            [of_Z 0; of_Z 0; of_Z 20; of_Z 8; frac 7 10];
            [of_Z 0; of_Z 12; of_Z 20; of_Z 8; frac 6 10];
            [of_Z 0; of_Z 0; of_Z 5; of_Z 20; frac 9 10]] (frac 2 10)
  = Ok [[of_Z 0; of_Z 0; of_Z 5; of_Z 20; frac 9 10];
        [of_Z 0; of_Z 0; of_Z 20; of_Z 8; frac 7 10];
        [of_Z 0; of_Z 12; of_Z 20; of_Z 8; frac 6 10]]
  /\ suppress [[of_Z 0; of_Z 0; of_Z 20; of_Z 20; frac 8 10];
               [of_Z 0; of_Z 0; of_Z 20; of_Z 8; frac 7 10];
               [of_Z 0; of_Z 12; of_Z 20; of_Z 8; frac 6 10];
               [of_Z 0; of_Z 0; of_Z 5; of_Z 20; frac 9 10]] (frac 3 10)
     = Ok [[of_Z 0; of_Z 0; of_Z 5; of_Z 20; frac 9 10];
           [of_Z 0; of_Z 0; of_Z 20; of_Z 20; frac 8 10]]
  /\ frac 2 10 < frac 3 10
  /\ ~ (3 <= 2)%nat.
Proof.
  split; [by_evaluation|]. split; [by_evaluation|]. split.
  - apply ltb_lt. vm_compute. reflexivity.
  - lia.
Qed.

(** C4, amended.  For [t1 <= t2]: within one pass of the loop, from the
    same remaining indices, the same index is accepted at both thresholds
    and every index that survives the pass at [t1] survives it at [t2], so
    the pass removes no more boxes at the higher threshold; and on at most
    three accepted records the result at [t1] is no longer than the result
    at [t2]. *)
Theorem threshold_monotone_per_pass (t1 t2 : num) :
  t1 <= t2 ->
  (forall sd l h res,
      Forall wide sd ->
      Forall (fun i => (i < length sd)%nat) (l ++ [h]) ->
      exists i1 i2,
        nms_iter sd t1 (l ++ [h]) res = Ok (i1, res ++ [h])
        /\ nms_iter sd t2 (l ++ [h]) res = Ok (i2, res ++ [h])
        /\ (forall i, In i i1 -> In i i2)
        /\ (length i1 <= length i2)%nat)
  /\ (forall lines,
        Forall accepted lines -> (length lines <= 3)%nat ->
        exists r1 r2,
          suppress lines t1 = Ok r1
          /\ suppress lines t2 = Ok r2
          /\ (length r1 <= length r2)%nat).
Proof.
  intro Ht. split.
  - intros sd l h res Hw Hb.
    exists (filter (fun i => negb (sup_idx sd t1 h i)) l),
           (filter (fun i => negb (sup_idx sd t2 h i)) l).
    split; [now apply nms_iter_spec|]. split; [now apply nms_iter_spec|].
    apply filter_incl_length. intros i E.
    apply negb_true_iff in E. apply negb_true_iff.
    unfold sup_idx in *. eapply sup_threshold_mono; eassumption.
  - intros lines Ha Hl.
    exists (survivors t1 lines), (survivors t2 lines).
    split; [now apply suppress_spec|]. split; [now apply suppress_spec|].
    unfold survivors.
    assert (E : length lines = length (rev (sort_by score lines)))
      by now rewrite length_rev, sort_by_length.
    rewrite E. apply select_small_mono.
    + intros x y. now apply sup_line_threshold_mono.
    + now rewrite <- E.
Qed.

(** Two copies of a box, at thresholds 0.2 and 1: one pass, and the whole
    run on the two records. *)
Lemma threshold_monotone_per_pass_witness :
  (exists i1 i2,
      nms_iter [[of_Z 0; of_Z 0; of_Z 10; of_Z 10; frac 8 10];
                [of_Z 0; of_Z 0; of_Z 10; of_Z 10; frac 9 10]]
               (frac 2 10) ([0%nat] ++ [1%nat]) [] = Ok (i1, [] ++ [1%nat])
      /\ nms_iter [[of_Z 0; of_Z 0; of_Z 10; of_Z 10; frac 8 10];
                   [of_Z 0; of_Z 0; of_Z 10; of_Z 10; frac 9 10]]
                  (of_Z 1) ([0%nat] ++ [1%nat]) [] = Ok (i2, [] ++ [1%nat])
      /\ (forall i, In i i1 -> In i i2)
      /\ (length i1 <= length i2)%nat)
  /\ (exists r1 r2,
        suppress [[of_Z 0; of_Z 0; of_Z 10; of_Z 10; frac 8 10];
                  [of_Z 0; of_Z 0; of_Z 10; of_Z 10; frac 9 10]] (frac 2 10)
        = Ok r1
        /\ suppress [[of_Z 0; of_Z 0; of_Z 10; of_Z 10; frac 8 10];
                     [of_Z 0; of_Z 0; of_Z 10; of_Z 10; frac 9 10]] (of_Z 1)
           = Ok r2
        /\ (length r1 <= length r2)%nat).
Proof.
  destruct (threshold_monotone_per_pass (frac 2 10) (of_Z 1)) as [H1 H2].
  - apply ltb_ge. vm_compute. reflexivity.
  - split.
    + apply H1.
      * repeat constructor; unfold wide; simpl; lia.
      * repeat constructor; simpl; lia.
    + apply H2.
      * repeat constructor.
        -- exists (of_Z 0), (of_Z 0), (of_Z 10), (of_Z 10), (frac 8 10).
           repeat split; try (apply ltb_ge; vm_compute; reflexivity);
             apply ltb_lt; vm_compute; reflexivity.
        -- exists (of_Z 0), (of_Z 0), (of_Z 10), (of_Z 10), (frac 9 10).
           repeat split; try (apply ltb_ge; vm_compute; reflexivity);
             apply ltb_lt; vm_compute; reflexivity.
      * simpl. lia.
Defined.


Section Binary64Resuppress.
Import PrimFloat.
Local Open Scope float_scope.



End Binary64Resuppress.

(** * Further properties of the code *)

(** ** Arithmetic on rationals *)

(** Turns a goal on [Qc] into the same goal on [Q]. *)
Ltac to_Q :=
  unfold Qcle, Qclt, Qcminus, Qcopp, Qcplus, Qcmult, Q2Qc in *;
  cbn [this] in *;
  repeat (rewrite !Qred_correct in * ).

Lemma quotient_bounds (a d : Qc) :
  0 <= a -> a < d -> 0 <= a / d /\ a / d < 1.
Proof.
  intros Ha Hd.
  assert (Hd0 : 0 < d) by (eapply Qcle_lt_trans; eassumption).
  unfold Qcdiv, Qcinv. to_Q.
  split.
  - apply Qle_shift_div_l; [assumption|]. nra.
  - apply Qlt_shift_div_r; [assumption|]. nra.
Qed.

Lemma quotient_positive (a d : Qc) : 0 < a -> 0 < d -> 0 < a / d.
Proof.
  intros Ha Hd. unfold Qcdiv, Qcinv. to_Q.
  apply Qlt_shift_div_l; [assumption|]. nra.
Qed.

Lemma epsilon_positive : 0 < epsilon.
Proof. apply ltb_lt. vm_compute. reflexivity. Qed.

Lemma py_max_bounds (a b : num) : a <= py_max a b /\ b <= py_max a b.
Proof.
  unfold py_max. destruct (ltb a b) eqn:E.
  - apply ltb_lt in E. split; [now apply Qclt_le_weak | apply Qcle_refl].
  - apply ltb_ge in E. split; [apply Qcle_refl | assumption].
Qed.

Lemma py_min_bounds (a b : num) : py_min a b <= a /\ py_min a b <= b.
Proof.
  unfold py_min. destruct (ltb b a) eqn:E.
  - apply ltb_lt in E. split; [now apply Qclt_le_weak | apply Qcle_refl].
  - apply ltb_ge in E. split; [apply Qcle_refl | assumption].
Qed.

(** The intersection area is below the union plus epsilon. *)
Lemma intersection_below_union (w h a b a' b' e : Qc) :
  0 <= w -> 0 <= h -> w <= a -> h <= b -> w <= a' -> h <= b' -> 0 < e ->
  0 <= w * h /\ w * h < a * b + a' * b' - w * h + e.
Proof.
  to_Q. intros. split; nra.
Qed.

Lemma sub_le_sub (p q p' q' : Qc) : p <= p' -> q' <= q -> p - q <= p' - q'.
Proof. to_Q. intros. lra. Qed.

Lemma product_positive (w h : Qc) : 0 < w -> 0 < h -> 0 < w * h.
Proof. to_Q. intros. nra. Qed.

Lemma sub_positive (p q : Qc) : 0 < p - q <-> q < p.
Proof. to_Q. split; intros; lra. Qed.

Lemma zero_quotient (d : Qc) : 0 / d = 0.
Proof. unfold Qcdiv. ring. Qed.

(** ** get_iou on any two rows *)

(** The four cases of the intersection of two boxes with ordered corners. *)
Lemma iou_geometry (x1 y1 x2 y2 x1' y1' x2' y2' : num) (r r' : row) :
  x1 <= x2 -> y1 <= y2 -> x1' <= x2' -> y1' <= y2' ->
  let v := iou (x1 :: y1 :: x2 :: y2 :: r) (x1' :: y1' :: x2' :: y2' :: r') in
  0 <= v /\ v < 1
  /\ (0 < v <-> py_max x1 x1' < py_min x2 x2' /\ py_max y1 y1' < py_min y2 y2').
Proof.
  intros Hx Hy Hx' Hy'. unfold iou. cbn [nth].
  set (w := py_min x2 x2' - py_max x1 x1').
  set (h := py_min y2 y2' - py_max y1 y1').
  destruct (ltb w 0 || ltb h 0) eqn:E; cbn zeta.
  - split; [apply Qcle_refl|]. split.
    + apply ltb_lt. vm_compute. reflexivity.
    + split.
      * intro H. exfalso. exact (Qclt_not_le _ _ H (Qcle_refl 0)).
      * intros [Hw Hh]. apply sub_positive in Hw, Hh. fold w in Hw. fold h in Hh.
        apply orb_true_iff in E. destruct E as [E|E]; apply ltb_lt in E;
          exfalso; eapply Qclt_not_le; try exact E; now apply Qclt_le_weak.
  - apply orb_false_iff in E. destruct E as [Ew Eh].
    apply ltb_ge in Ew, Eh.
    destruct (py_max_bounds x1 x1') as [M1 M2].
    destruct (py_max_bounds y1 y1') as [M3 M4].
    destruct (py_min_bounds x2 x2') as [N1 N2].
    destruct (py_min_bounds y2 y2') as [N3 N4].
    assert (W : w <= x2 - x1) by now apply sub_le_sub.
    assert (W' : w <= x2' - x1') by now apply sub_le_sub.
    assert (H : h <= y2 - y1) by now apply sub_le_sub.
    assert (H' : h <= y2' - y1') by now apply sub_le_sub.
    destruct (intersection_below_union w h _ _ _ _ epsilon
                Ew Eh W H W' H' epsilon_positive) as [A0 A1].
    destruct (quotient_bounds _ _ A0 A1) as [B0 B1].
    split; [exact B0|]. split; [exact B1|]. split.
    + intro Hv.
      destruct (Qcle_lt_or_eq _ _ Ew) as [Lw|Zw];
        destruct (Qcle_lt_or_eq _ _ Eh) as [Lh|Zh].
      * split; now apply sub_positive.
      * exfalso. rewrite <- Zh, Qcmult_0_r, zero_quotient in Hv.
        exact (Qclt_not_le _ _ Hv (Qcle_refl 0)).
      * exfalso. rewrite <- Zw, Qcmult_0_l, zero_quotient in Hv.
        exact (Qclt_not_le _ _ Hv (Qcle_refl 0)).
      * exfalso. rewrite <- Zw, Qcmult_0_l, zero_quotient in Hv.
        exact (Qclt_not_le _ _ Hv (Qcle_refl 0)).
    + intros [Hw Hh]. apply sub_positive in Hw, Hh.
      apply quotient_positive.
      * now apply product_positive.
      * exact (Qcle_lt_trans _ _ _ A0 A1).
Qed.

Lemma get_iou_short (b1 b2 : row) :
  (length b1 < 4)%nat \/ (length b2 < 4)%nat ->
  get_iou b1 b2 = Raise IndexError.
Proof.
  intros [H|H].
  - destruct b1 as [|a0 [|a1 [|a2 [|a3 r1]]]]; simpl in H; try lia;
      destruct b2 as [|c0 [|c1 [|c2 [|c3 r2]]]]; reflexivity.
  - destruct b2 as [|c0 [|c1 [|c2 [|c3 r2]]]]; simpl in H; try lia;
      destruct b1 as [|a0 [|a1 [|a2 [|a3 r1]]]]; reflexivity.
Qed.


(** X2.  A row with fewer than four entries, in either position, makes
    [get_iou] raise [IndexError]. *)
Theorem get_iou_short_row (b1 b2 : row) :
  (length b1 < 4)%nat \/ (length b2 < 4)%nat ->
  get_iou b1 b2 = Raise IndexError.
Proof.
  intro H. destruct (le_lt_dec 4 (length b1)) as [H1|H1].
  - destruct H as [H|H]; [lia|]. now apply get_iou_short; right.
  - now apply get_iou_short; left.
Qed.

(** A three-entry row against a full box. *)
Lemma get_iou_short_row_witness :
  get_iou [of_Z 0; of_Z 0; of_Z 10]
          [of_Z 0; of_Z 0; of_Z 10; of_Z 10; frac 1 2] = Raise IndexError.
Proof.
  apply get_iou_short_row. left. simpl. lia.
Defined.

(** ** get_data on any file *)

Lemma mapM_inv (A B : Type) (f : A -> M B) (l : list A) :
  forall l', mapM f l = Ok l' -> Forall2 (fun a b => f a = Ok b) l l'.
Proof.
  induction l as [|a l IH]; simpl; intros l' H.
  - injection H as <-. constructor.
  - destruct (f a) as [b|e] eqn:E; [|discriminate]. cbn [bind] in H.
    destruct (mapM f l) as [bs|e]; [|discriminate]. cbn [bind] in H.
    injection H as <-. constructor; [assumption | now apply IH].
Qed.

(** One failing element makes [mapM] fail, when [IndexError] is the only
    exception the function raises. *)
Lemma mapM_raise (A B : Type) (f : A -> M B) (l : list A) (a : A) :
  (forall x e, f x = Raise e -> e = IndexError) ->
  In a l -> f a = Raise IndexError -> mapM f l = Raise IndexError.
Proof.
  intros Hf. induction l as [|x l IH]; simpl; [contradiction|].
  intros [->|Hin] Ha.
  - now rewrite Ha.
  - destruct (f x) as [b|e] eqn:E.
    + cbn [bind]. now rewrite IH.
    + cbn [bind]. f_equal. now apply (Hf x).
Qed.

(** [clean_line] in one piece: the surviving fields in corner form when at
    least four survive, [IndexError] otherwise. *)
Lemma clean_line_cases (l : list num) :
  clean_line l
  = if (4 <=? length (clean_fields l 0))%nat
    then Ok (to_corner (clean_fields l 0)) else Raise IndexError.
Proof.
  unfold clean_line.
  destruct (clean_fields l 0) as [|a0 [|a1 [|a2 [|a3 r]]]]; reflexivity.
Qed.

Lemma to_corner_length (r : row) : length (to_corner r) = length r.
Proof. destruct r as [|a0 [|a1 [|a2 [|a3 r]]]]; reflexivity. Qed.

Lemma clean_fields_length (l : list num) :
  forall i, (length (clean_fields l i) <= length l)%nat.
Proof.
  induction l as [|f l IH]; intro i; simpl; trivial.
  specialize (IH (S i)). destruct (weird i f); simpl; lia.
Qed.

Lemma np_array_inv (rows arr : list row) : np_array rows = Ok arr -> arr = rows.
Proof.
  unfold np_array. destruct rows as [|r rows].
  - congruence.
  - match goal with |- (if ?c then _ else _) = _ -> _ => destruct c end;
      congruence.
Qed.

(** X5.  [get_data] never drops a line.  When it returns, the array has
    one row per line of the file, in the order of the file; each row is
    the fields of its line that pass the test of line 55, in corner form,
    and has at least four columns and at most as many as the line has
    fields; [final_res] is untouched. *)
Theorem get_data_one_row_per_line (self self' : nms) (lines : list (list num)) :
  get_data self lines = Ok self' ->
  length (data self') = length lines
  /\ Forall2 (fun l r =>
                r = to_corner (clean_fields l 0)
                /\ (4 <= length r <= length l)%nat)
             lines (data self')
  /\ final_res self' = final_res self.
Proof.
  unfold get_data. intro H.
  destruct (mapM clean_line lines) as [rows|e] eqn:Em; [|discriminate].
  cbn [bind] in H.
  destruct (np_array rows) as [arr|e] eqn:Ea; [|discriminate].
  cbn [bind] in H. injection H as <-. cbn [data final_res].
  apply np_array_inv in Ea. subst arr.
  apply mapM_inv in Em.
  split; [symmetry; eapply Forall2_length; eassumption|].
  split; [|reflexivity].
  eapply Forall2_impl; [|exact Em].
  intros l r Hc. cbn beta in Hc. rewrite clean_line_cases in Hc.
  destruct (Nat.leb_spec 4 (length (clean_fields l 0))) as [L|L];
    [|discriminate].
  injection Hc as <-. split; trivial.
  rewrite to_corner_length. pose proof (clean_fields_length l 0). lia.
Qed.

(** A file of one accepted record. *)
Lemma get_data_one_row_per_line_witness :
  exists self',
    get_data (mk_nms [] None)
      [[of_Z 0; of_Z 0; of_Z 10; of_Z 10; frac 9 10]] = Ok self'
    /\ length (data self') = 1%nat.
Proof.
  assert (E : get_data (mk_nms [] None)
                [[of_Z 0; of_Z 0; of_Z 10; of_Z 10; frac 9 10]]
              = Ok (mk_nms (map to_corner
                      [[of_Z 0; of_Z 0; of_Z 10; of_Z 10; frac 9 10]]) None)).
  { apply (get_data_accepted (mk_nms [] None)). repeat constructor.
    exists (of_Z 0), (of_Z 0), (of_Z 10), (of_Z 10), (frac 9 10).
    repeat split; try (apply ltb_ge; vm_compute; reflexivity);
      apply ltb_lt; vm_compute; reflexivity. }
  eexists. split; [exact E|].
  exact (proj1 (get_data_one_row_per_line _ _ _ E)).
Defined.

(** X6.  A line of which fewer than four fields pass the test of line 55
    (a line with fewer than four fields, or a record with two bad values)
    makes [get_data] raise [IndexError], wherever the line is in the
    file. *)
Theorem get_data_too_few_fields (self : nms) (lines : list (list num))
    (l : list num) :
  In l lines -> (length (clean_fields l 0) < 4)%nat ->
  get_data self lines = Raise IndexError.
Proof.
  intros Hin Hl. unfold get_data.
  rewrite (mapM_raise _ _ clean_line lines l); trivial.
  - intros x e. rewrite clean_line_cases.
    destruct (4 <=? length (clean_fields x 0))%nat; [discriminate|].
    now intros [= <-].
  - rewrite clean_line_cases.
    destruct (Nat.leb_spec 4 (length (clean_fields l 0))) as [L|L];
      [lia | reflexivity].
Qed.

(** A valid record followed by one with negative x and y. *)
Lemma get_data_too_few_fields_witness :
  get_data (mk_nms [] None)
    [[of_Z 0; of_Z 0; of_Z 10; of_Z 10; frac 9 10];
     [of_Z (-1); of_Z (-1); of_Z 10; of_Z 10; frac 1 2]]
  = Raise IndexError.
Proof.
  apply (get_data_too_few_fields _ _
           [of_Z (-1); of_Z (-1); of_Z 10; of_Z 10; frac 1 2]).
  - right. left. reflexivity.
  - vm_compute. lia.
Defined.

Lemma add_positive (x w : Qc) : 0 < w -> x < w + x.
Proof. to_Q. intros. lra. Qed.

(** X7.  On a file whose records are all accepted, [get_data] stores
    boxes that satisfy the box invariant: non-negative top-left corner,
    bottom-right corner not before it ([x1 <= x2], [y1 <= y2]), score
    between 0 and 1. *)
Theorem get_data_box_invariant (self : nms) (lines : list (list num)) :
  Forall accepted lines ->
  exists self',
    get_data self lines = Ok self'
    /\ length (data self') = length lines
    /\ Forall box_invariant (data self').
Proof.
  intro H. eexists. split; [now apply get_data_accepted|].
  cbn [data]. split; [apply length_map|].
  rewrite Forall_forall in *. intros r Hr.
  apply in_map_iff in Hr. destruct Hr as [l [<- Hl]].
  destruct (H l Hl) as (x & y & w & h & s & -> & Hx & Hy & Hw & Hh & Hs & Hs1).
  exists x, y, (w + x), (h + y), s. cbn [to_corner].
  repeat split; trivial; apply Qclt_le_weak; now apply add_positive.
Qed.

(** One accepted record. *)
Lemma get_data_box_invariant_witness :
  exists self',
    get_data (mk_nms [] None)
      [[of_Z 3; of_Z 4; of_Z 10; of_Z 20; frac 9 10]] = Ok self'
    /\ length (data self') = 1%nat
    /\ Forall box_invariant (data self').
Proof.
  apply (get_data_box_invariant (mk_nms [] None)
           [[of_Z 3; of_Z 4; of_Z 10; of_Z 20; frac 9 10]]).
  repeat constructor.
  exists (of_Z 3), (of_Z 4), (of_Z 10), (of_Z 20), (frac 9 10).
  repeat split; try (apply ltb_ge; vm_compute; reflexivity);
    apply ltb_lt; vm_compute; reflexivity.
Defined.

(** ** compute_nms: what survives *)

Lemma rev_sorted_head (X : list row) :
  X <> [] ->
  exists top rest,
    rev (sort_by score X) = top :: rest
    /\ In top X
    /\ (forall r, In r X -> score r <= score top).
Proof.
  intro Hne.
  destruct (rev (sort_by score X)) as [|top rest] eqn:E.
  - exfalso. apply Hne. apply length_zero_iff_nil.
    rewrite <- (sort_by_length _ score X), <- length_rev, E. reflexivity.
  - exists top, rest. split; [reflexivity|].
    assert (Hin : forall r, In r X <-> In r (top :: rest)).
    { intro r. rewrite <- E, <- in_rev. split; apply Permutation_in;
        [symmetry|]; apply sort_by_perm. }
    split; [apply Hin; now left|].
    pose proof (StronglySorted_rev _ _ _ (sort_by_ascending _ score X)) as S.
    rewrite E in S. inversion S as [|? ? _ F]; subst.
    intros r Hr. apply Hin in Hr. destruct Hr as [<-|Hr].
    + apply Qcle_refl.
    + rewrite Forall_forall in F. now apply F.
Qed.

Lemma select_head (A : Type) (sup : A -> A -> bool) (n : nat) (h : A)
    (rest : list A) :
  exists tl, select sup (S n) (h :: rest) = h :: tl.
Proof. eexists. reflexivity. Qed.

(** Where the head suppresses everything else, it survives alone. *)
Lemma select_only_head (A : Type) (sup : A -> A -> bool) (n : nat) (h : A)
    (rest : list A) :
  (forall x, In x rest -> sup h x = true) ->
  select sup (S n) (h :: rest) = [h].
Proof.
  intro H. cbn [select].
  replace (filter (fun x => negb (sup h x)) rest) with (@nil A).
  - now destruct n.
  - symmetry. induction rest as [|x rest IH]; simpl; trivial.
    rewrite (H x) by now left. simpl. apply IH.
    intros; apply H; now right.
Qed.

Lemma sup_of_get_iou (t : num) (a b : row) (v : num) :
  (4 <= length a)%nat -> (4 <= length b)%nat ->
  get_iou a b = Ok v -> v <= t -> sup t a b = false.
Proof.
  intros Ha Hb E Hv. rewrite get_iou_iou in E by assumption.
  injection E as <-. unfold sup. now apply gtb_le.
Qed.

Lemma box_geometry_iou (a b : row) :
  box_geometry a -> box_geometry b -> 0 <= iou a b /\ iou a b < 1.
Proof.
  intros (x1 & y1 & x2 & y2 & r & -> & Hx & Hy)
         (x1' & y1' & x2' & y2' & r' & -> & Hx' & Hy').
  destruct (iou_geometry x1 y1 x2 y2 x1' y1' x2' y2' r r' Hx Hy Hx' Hy')
    as (H0 & H1 & _).
  split; assumption.
Qed.

(** X8.  When no box overlaps an earlier one of the array by more than the
    threshold (the IoU of every pair is at most the threshold),
    [compute_nms] keeps every box: the output is the whole array in
    width/height form, from the last row of the stable ascending sort to
    the first. *)
Theorem compute_nms_keeps_all (X : list row) (fr0 : option (list row))
    (t : num) :
  X <> [] -> Forall wide X ->
  ForallOrdPairs (fun a b => exists v, get_iou a b = Ok v /\ v <= t) X ->
  exists out,
    compute_nms (mk_nms X fr0) t = Ok (RetNone, mk_nms X (Some out))
    /\ out = map to_xywh (rev (sort_by score X))
    /\ Permutation out (map to_xywh X)
    /\ length out = length X.
Proof.
  intros Hne Hw H.
  assert (E : nms_rows t X = map to_xywh (rev (sort_by score X))).
  { apply nms_rows_all.
    apply ForallOrdPairs_impl_In
      with (P := fun a b => exists v, get_iou a b = Ok v /\ v <= t); trivial.
    intros a b Ha Hb (v & Hv & Hle).
    rewrite Forall_forall in Hw.
    pose proof (Hw a Ha) as Wa. pose proof (Hw b Hb) as Wb.
    unfold wide in Wa, Wb.
    apply (sup_of_get_iou t a b v); trivial; lia. }
  exists (nms_rows t X). split; [now apply compute_nms_spec|].
  split; [exact E|]. rewrite E. split.
  - apply Permutation_map. rewrite <- Permutation_rev. apply sort_by_perm.
  - now rewrite length_map, length_rev, sort_by_length.
Qed.

(** Two boxes fifty units apart, at threshold 0.5. *)
Lemma compute_nms_keeps_all_witness :
  exists out,
    compute_nms
      (mk_nms [[of_Z 0; of_Z 0; of_Z 10; of_Z 10; frac 9 10];
               [of_Z 50; of_Z 50; of_Z 60; of_Z 60; frac 8 10]] None)
      (frac 1 2)
    = Ok (RetNone,
          mk_nms [[of_Z 0; of_Z 0; of_Z 10; of_Z 10; frac 9 10];
                  [of_Z 50; of_Z 50; of_Z 60; of_Z 60; frac 8 10]] (Some out))
    /\ length out = 2%nat.
Proof.
  destruct (compute_nms_keeps_all
              [[of_Z 0; of_Z 0; of_Z 10; of_Z 10; frac 9 10];
               [of_Z 50; of_Z 50; of_Z 60; of_Z 60; frac 8 10]]
              None (frac 1 2)) as (out & H1 & _ & _ & H2).
  - discriminate.
  - repeat constructor; unfold wide; simpl; lia.
  - repeat constructor. exists 0. split.
    + apply M_num_eqb_eq. vm_compute. reflexivity.
    + apply ltb_ge. vm_compute. reflexivity.
  - exists out. split; assumption.
Defined.

(** X9.  On a non-empty array the output of [compute_nms] is never
    empty: its first row is a box of the highest score of the array, in
    width/height form, whatever the threshold. *)
Theorem compute_nms_top_survives (X : list row) (fr0 : option (list row))
    (t : num) :
  X <> [] -> Forall wide X ->
  exists top rest,
    compute_nms (mk_nms X fr0) t
    = Ok (RetNone, mk_nms X (Some (to_xywh top :: rest)))
    /\ In top X
    /\ (forall r, In r X -> score r <= score top).
Proof.
  intros Hne Hw.
  destruct (rev_sorted_head X Hne) as (top & rest & E & Hin & Hmax).
  destruct X as [|x0 X0] eqn:EX; [congruence|]. rewrite <- EX in *.
  destruct (select_head _ (sup t) (length X0) top rest) as [tl Htl].
  exists top, (map to_xywh tl). split; [|split; assumption].
  rewrite compute_nms_spec by assumption.
  unfold nms_rows. rewrite E.
  replace (length X) with (S (length X0)) by (rewrite EX; reflexivity).
  rewrite Htl. reflexivity.
Qed.

(** The scenario of the specification, in corner form. *)
Lemma compute_nms_top_survives_witness :
  exists top rest,
    compute_nms
      (mk_nms [[of_Z 0; of_Z 0; of_Z 10; of_Z 10; frac 9 10];
               [of_Z 50; of_Z 50; of_Z 60; of_Z 60; frac 95 100]] None)
      (frac 1 2)
    = Ok (RetNone,
          mk_nms [[of_Z 0; of_Z 0; of_Z 10; of_Z 10; frac 9 10];
                  [of_Z 50; of_Z 50; of_Z 60; of_Z 60; frac 95 100]]
                 (Some (to_xywh top :: rest)))
    /\ In top [[of_Z 0; of_Z 0; of_Z 10; of_Z 10; frac 9 10];
               [of_Z 50; of_Z 50; of_Z 60; of_Z 60; frac 95 100]].
Proof.
  destruct (compute_nms_top_survives
              [[of_Z 0; of_Z 0; of_Z 10; of_Z 10; frac 9 10];
               [of_Z 50; of_Z 50; of_Z 60; of_Z 60; frac 95 100]]
              None (frac 1 2)) as (top & rest & H1 & H2 & _).
  - discriminate.
  - repeat constructor; unfold wide; simpl; lia.
  - exists top, rest. split; assumption.
Defined.

(** X10.  [compute_nms] invents no box: every row of the output is a row
    of the array in width/height form, and the output has at least one row
    and at most as many rows as the array. *)
Theorem compute_nms_output_from_input (X : list row) (fr0 : option (list row))
    (t : num) :
  X <> [] -> Forall wide X ->
  exists out,
    compute_nms (mk_nms X fr0) t = Ok (RetNone, mk_nms X (Some out))
    /\ (forall r, In r out -> exists b, In b X /\ r = to_xywh b)
    /\ (1 <= length out <= length X)%nat.
Proof.
  intros Hne Hw. exists (nms_rows t X).
  split; [now apply compute_nms_spec|]. unfold nms_rows. split.
  - intros r Hr. apply in_map_iff in Hr. destruct Hr as [b [<- Hb]].
    exists b. split; [|reflexivity].
    apply select_In, in_rev in Hb.
    eapply Permutation_in; [apply sort_by_perm | exact Hb].
  - rewrite length_map. split.
    + destruct (rev_sorted_head X Hne) as (top & rest & E & _).
      rewrite E. destruct X; [congruence|]. simpl. lia.
    + pose proof (select_length _ (sup t) (length X) (rev (sort_by score X))).
      rewrite length_rev, sort_by_length in H. exact H.
Qed.

(** Two copies of a box: the second is suppressed. *)
Lemma compute_nms_output_from_input_witness :
  exists out,
    compute_nms
      (mk_nms [[of_Z 0; of_Z 0; of_Z 10; of_Z 10; frac 9 10];
               [of_Z 0; of_Z 0; of_Z 10; of_Z 10; frac 8 10]] None)
      (frac 1 2)
    = Ok (RetNone,
          mk_nms [[of_Z 0; of_Z 0; of_Z 10; of_Z 10; frac 9 10];
                  [of_Z 0; of_Z 0; of_Z 10; of_Z 10; frac 8 10]] (Some out))
    /\ (1 <= length out <= 2)%nat.
Proof.
  destruct (compute_nms_output_from_input
              [[of_Z 0; of_Z 0; of_Z 10; of_Z 10; frac 9 10];
               [of_Z 0; of_Z 0; of_Z 10; of_Z 10; frac 8 10]]
              None (frac 1 2)) as (out & H1 & _ & H2).
  - discriminate.
  - repeat constructor; unfold wide; simpl; lia.
  - exists out. split; assumption.
Defined.

(** ** compute_nms: extreme thresholds *)

(** X11.  With a threshold of 1 or more nothing is ever suppressed: on
    boxes whose corners are in order the IoU stays below 1, so
    [compute_nms] returns every box, highest score first. *)
Theorem compute_nms_threshold_one (X : list row) (fr0 : option (list row))
    (t : num) :
  X <> [] -> Forall wide X -> Forall box_geometry X -> 1 <= t ->
  exists out,
    compute_nms (mk_nms X fr0) t = Ok (RetNone, mk_nms X (Some out))
    /\ out = map to_xywh (rev (sort_by score X))
    /\ length out = length X.
Proof.
  intros Hne Hw Hg Ht.
  assert (E : nms_rows t X = map to_xywh (rev (sort_by score X))).
  { apply nms_rows_all. apply ForallPairs_ForallOrdPairs.
    intros a b Ha Hb. rewrite Forall_forall in Hg.
    destruct (box_geometry_iou a b (Hg a Ha) (Hg b Hb)) as [_ H1].
    unfold sup. apply gtb_le. apply Qclt_le_weak.
    eapply Qclt_le_trans; eassumption. }
  exists (nms_rows t X). split; [now apply compute_nms_spec|].
  split; [exact E|].
  now rewrite E, length_map, length_rev, sort_by_length.
Qed.

(** Two copies of a box, at threshold 1. *)
Lemma compute_nms_threshold_one_witness :
  exists out,
    compute_nms
      (mk_nms [[of_Z 0; of_Z 0; of_Z 10; of_Z 10; frac 9 10];
               [of_Z 0; of_Z 0; of_Z 10; of_Z 10; frac 8 10]] None)
      (of_Z 1)
    = Ok (RetNone,
          mk_nms [[of_Z 0; of_Z 0; of_Z 10; of_Z 10; frac 9 10];
                  [of_Z 0; of_Z 0; of_Z 10; of_Z 10; frac 8 10]] (Some out))
    /\ length out = 2%nat.
Proof.
  destruct (compute_nms_threshold_one
              [[of_Z 0; of_Z 0; of_Z 10; of_Z 10; frac 9 10];
               [of_Z 0; of_Z 0; of_Z 10; of_Z 10; frac 8 10]]
              None (of_Z 1)) as (out & H1 & _ & H2).
  - discriminate.
  - repeat constructor; unfold wide; simpl; lia.
  - repeat constructor;
      (do 5 eexists; split; [reflexivity|];
       split; apply ltb_ge; vm_compute; reflexivity).
  - apply ltb_ge. vm_compute. reflexivity.
  - exists out. split; assumption.
Defined.

(** X12.  When the IoU that [get_iou] computes is above the threshold for
    every two boxes of the array, the first accepted box suppresses all
    the others: [compute_nms] returns a single box, one of the highest
    score. *)
Theorem compute_nms_all_suppressed (X : list row) (fr0 : option (list row))
    (t : num) :
  X <> [] -> Forall wide X ->
  (forall a b, In a X -> In b X -> exists v, get_iou a b = Ok v /\ t < v) ->
  exists top,
    compute_nms (mk_nms X fr0) t = Ok (RetNone, mk_nms X (Some [to_xywh top]))
    /\ In top X
    /\ (forall r, In r X -> score r <= score top).
Proof.
  intros Hne Hw Hall.
  destruct (rev_sorted_head X Hne) as (top & rest & E & Hin & Hmax).
  exists top. split; [|split; assumption].
  rewrite compute_nms_spec by assumption. unfold nms_rows. rewrite E.
  destruct X as [|x0 X0] eqn:EX; [congruence|]. rewrite <- EX in *.
  replace (length X) with (S (length X0)) by (rewrite EX; reflexivity).
  rewrite select_only_head; [reflexivity|].
  intros b Hb.
  assert (Hb' : In b X).
  { eapply Permutation_in; [apply sort_by_perm|].
    apply in_rev. rewrite E. now right. }
  destruct (Hall top b Hin Hb') as (v & Hv & Ht).
  rewrite Forall_forall in Hw.
  pose proof (Hw top Hin) as Wt. pose proof (Hw b Hb') as Wb.
  unfold wide in Wt, Wb.
  rewrite get_iou_iou in Hv by lia. injection Hv as <-.
  unfold sup. now apply gtb_gt.
Qed.

(** Two boxes fifty units apart, at threshold -1. *)
Lemma compute_nms_all_suppressed_witness :
  exists top,
    compute_nms
      (mk_nms [[of_Z 0; of_Z 0; of_Z 10; of_Z 10; frac 9 10];
               [of_Z 50; of_Z 50; of_Z 60; of_Z 60; frac 8 10]] None)
      (of_Z (-1))
    = Ok (RetNone,
          mk_nms [[of_Z 0; of_Z 0; of_Z 10; of_Z 10; frac 9 10];
                  [of_Z 50; of_Z 50; of_Z 60; of_Z 60; frac 8 10]]
                 (Some [to_xywh top])).
Proof.
  destruct (compute_nms_all_suppressed
              [[of_Z 0; of_Z 0; of_Z 10; of_Z 10; frac 9 10];
               [of_Z 50; of_Z 50; of_Z 60; of_Z 60; frac 8 10]]
              None (of_Z (-1))) as (top & H1 & _).
  - discriminate.
  - repeat constructor; unfold wide; simpl; lia.
  - intros a b Ha Hb. exists (iou a b). split.
    + apply get_iou_iou;
        [destruct Ha as [<-|[<-|[]]] | destruct Hb as [<-|[<-|[]]]];
        simpl; lia.
    + apply ltb_lt.
      destruct Ha as [<-|[<-|[]]]; destruct Hb as [<-|[<-|[]]];
        vm_compute; reflexivity.
  - exists top. exact H1.
Defined.

(** ** compute_nms: the order of the input *)

Lemma Permutation_filter_both (A : Type) (f : A -> bool) (l l' : list A) :
  Permutation l l' -> Permutation (filter f l) (filter f l').
Proof.
  induction 1 as [|x l l' _ IH|x y l|l l' l'' _ IH1 _ IH2]; simpl.
  - constructor.
  - destruct (f x); [now constructor | assumption].
  - destruct (f x), (f y); try reflexivity. apply perm_swap.
  - etransitivity; eassumption.
Qed.

Lemma with_key_short (A : Type) (key : A -> num) (k : num) (l : list A) :
  NoDup (map key l) -> (length (with_key key k l) <= 1)%nat.
Proof.
  induction l as [|a l IH]; simpl; intro N; [lia|].
  inversion N as [|? ? Hn N']; subst. specialize (IH N').
  destruct (eqb_num (key a) k) eqn:E; simpl; [|lia].
  apply eqb_num_eq in E.
  destruct (with_key key k l) as [|x tl] eqn:Ew; simpl; [lia|].
  exfalso. apply Hn.
  assert (Hx : In x (with_key key k l)) by (rewrite Ew; now left).
  apply with_key_In in Hx. destruct Hx as [Hx Hk].
  rewrite E, <- Hk. now apply in_map.
Qed.

(** With pairwise distinct keys the sort does not depend on the order of
    its input. *)
Lemma sort_by_perm_distinct (A : Type) (key : A -> num) (l l' : list A) :
  Permutation l l' -> NoDup (map key l) -> sort_by key l = sort_by key l'.
Proof.
  intros HP N. apply (ascending_stable_unique _ key);
    try apply sort_by_ascending.
  intro k. rewrite !sort_by_stable.
  pose proof (Permutation_filter_both _ (fun x => eqb_num (key x) k) _ _ HP)
    as Hf.
  fold (with_key key k l) in Hf. fold (with_key key k l') in Hf.
  pose proof (with_key_short _ key k l N) as Hs.
  destruct (with_key key k l) as [|a [|b tl]]; simpl in Hs; try lia.
  - apply Permutation_nil in Hf. now rewrite Hf.
  - apply Permutation_length_1_inv in Hf. now rewrite Hf.
Qed.

(** X13.  When the scores of the array are pairwise distinct the output of
    [compute_nms] does not depend on the order of the rows: any
    rearrangement of the array gives the same output sequence. *)
Theorem compute_nms_order_independent (X X' : list row)
    (fr0 fr0' : option (list row)) (t : num) :
  X <> [] -> Forall wide X -> NoDup (map score X) -> Permutation X X' ->
  exists out,
    compute_nms (mk_nms X fr0) t = Ok (RetNone, mk_nms X (Some out))
    /\ compute_nms (mk_nms X' fr0') t = Ok (RetNone, mk_nms X' (Some out)).
Proof.
  intros Hne Hw N HP. exists (nms_rows t X).
  split; [now apply compute_nms_spec|].
  rewrite compute_nms_spec.
  - unfold nms_rows.
    now rewrite (sort_by_perm_distinct _ score X X' HP N),
                (Permutation_length HP).
  - intro E. subst X'. apply Permutation_sym, Permutation_nil in HP.
    contradiction.
  - eapply Permutation_Forall; eassumption.
Qed.

(** Two overlapping boxes, in both orders. *)
Lemma compute_nms_order_independent_witness :
  exists out,
    compute_nms
      (mk_nms [[of_Z 0; of_Z 0; of_Z 10; of_Z 10; frac 9 10];
               [of_Z 1; of_Z 1; of_Z 11; of_Z 11; frac 8 10]] None)
      (frac 1 2)
    = Ok (RetNone,
          mk_nms [[of_Z 0; of_Z 0; of_Z 10; of_Z 10; frac 9 10];
                  [of_Z 1; of_Z 1; of_Z 11; of_Z 11; frac 8 10]] (Some out))
    /\ compute_nms
         (mk_nms [[of_Z 1; of_Z 1; of_Z 11; of_Z 11; frac 8 10];
                  [of_Z 0; of_Z 0; of_Z 10; of_Z 10; frac 9 10]] None)
         (frac 1 2)
       = Ok (RetNone,
             mk_nms [[of_Z 1; of_Z 1; of_Z 11; of_Z 11; frac 8 10];
                     [of_Z 0; of_Z 0; of_Z 10; of_Z 10; frac 9 10]]
                    (Some out)).
Proof.
  apply compute_nms_order_independent.
  - discriminate.
  - repeat constructor; unfold wide; simpl; lia.
  - repeat constructor; simpl.
    + intros [E|[]]. apply (f_equal this) in E. vm_compute in E. discriminate.
    + intros [].
  - apply perm_swap.
Defined.

Lemma sort_by_ascending_id (A : Type) (key : A -> num) (l : list A) :
  ascending key l -> sort_by key l = l.
Proof.
  unfold ascending. induction 1 as [|x l _ IH F]; simpl; trivial.
  rewrite IH. destruct l as [|y l]; simpl; trivial.
  inversion F as [|? ? Hy _]; subst.
  now rewrite (proj2 (ltb_ge (key y) (key x)) Hy).
Qed.

(** X14.  On an array already in ascending score order, in particular
    when all scores are equal, the sort changes nothing and the loop runs
    from the last row of the array to the first: the last row is always
    kept and comes first in the output, and the output is the greedy
    selection from the rows in reverse input order. *)
Theorem compute_nms_ties_last_row_first (X : list row)
    (fr0 : option (list row)) (t : num) :
  X <> [] -> Forall wide X -> ascending score X ->
  exists rest,
    compute_nms (mk_nms X fr0) t
    = Ok (RetNone, mk_nms X (Some (to_xywh (last X []) :: rest)))
    /\ to_xywh (last X []) :: rest
       = map to_xywh (select (sup t) (length X) (rev X)).
Proof.
  intros Hne Hw Ha.
  rewrite compute_nms_spec by assumption. unfold nms_rows.
  rewrite (sort_by_ascending_id _ score X Ha).
  destruct (exists_last Hne) as [X0 [x ->]].
  rewrite last_last, rev_app_distr, length_app. cbn [rev app length].
  replace (length X0 + 1)%nat with (S (length X0)) by lia.
  destruct (select_head _ (sup t) (length X0) x (rev X0)) as [tl Htl].
  rewrite Htl. exists (map to_xywh tl). split; reflexivity.
Qed.

(** Two disjoint boxes of equal score: the second comes out first. *)
Lemma compute_nms_ties_last_row_first_witness :
  exists rest,
    compute_nms
      (mk_nms [[of_Z 0; of_Z 0; of_Z 10; of_Z 10; frac 1 2];
               [of_Z 50; of_Z 50; of_Z 60; of_Z 60; frac 1 2]] None)
      (frac 1 2)
    = Ok (RetNone,
          mk_nms [[of_Z 0; of_Z 0; of_Z 10; of_Z 10; frac 1 2];
                  [of_Z 50; of_Z 50; of_Z 60; of_Z 60; frac 1 2]]
                 (Some (to_xywh [of_Z 50; of_Z 50; of_Z 60; of_Z 60; frac 1 2]
                        :: rest))).
Proof.
  destruct (compute_nms_ties_last_row_first
              [[of_Z 0; of_Z 0; of_Z 10; of_Z 10; frac 1 2];
               [of_Z 50; of_Z 50; of_Z 60; of_Z 60; frac 1 2]]
              None (frac 1 2)) as (rest & H1 & _).
  - discriminate.
  - repeat constructor; unfold wide; simpl; lia.
  - repeat constructor; apply ltb_ge; vm_compute; reflexivity.
  - exists rest. exact H1.
Defined.

(** ** write_res and the main program *)

Lemma set_idx_nonempty (A : Type) (l l' : list A) (i : nat) (v : A) :
  set_idx l i v = Ok l' -> l' <> [].
Proof.
  destruct l as [|a l]; [discriminate|]. destruct i as [|i]; simpl.
  - intros [= <-]. discriminate.
  - destruct (set_idx l i v); simpl; [intros [= <-]|]; discriminate.
Qed.



(** Each element returns, or throws an exception of the class [P]: so
    does the whole traversal; and it returns when every element does. *)
Lemma omapM_cases (A B : Type) (P : io_exn -> Prop) (f : A -> outcome B)
    (l : list A) :
  (forall a, In a l ->
     (exists b, f a = Returns b) \/ (exists e, f a = Throws e /\ P e)) ->
  (exists bs, omapM f l = Returns bs)
  \/ (exists e, omapM f l = Throws e /\ P e).
Proof.
  induction l as [|a l IH]; intro H; [left; now exists []|]. simpl.
  destruct (H a (or_introl eq_refl)) as [[b ->]|[e [-> He]]];
    [|right; now exists e].
  cbn [obind].
  destruct IH as [[bs ->]|[e [-> He]]].
  - intros c Hc. apply H. now right.
  - left. now exists (b :: bs).
  - right. now exists e.
Qed.

Lemma omapM_returns (A B : Type) (f : A -> outcome B) (l : list A) :
  (forall a, In a l -> exists b, f a = Returns b) ->
  exists bs, omapM f l = Returns bs.
Proof.
  intro H.
  destruct (omapM_cases A B (fun _ => False) f l) as [Hr|[e [_ []]]];
    [|exact Hr].
  intros a Ha. left. now apply H.
Qed.

Section Binary64Output.
Import PrimFloat.
Local Open Scope float_scope.
Variable str_float : float -> string.

Lemma b64_py_int_cases (v : float) :
  (exists z, B64.py_int v = Returns z)
  \/ (exists e, B64.py_int v = Throws e /\ int_error e).
Proof.
  unfold B64.py_int, int_error.
  destruct (FloatOps.Prim2SF v) as [s|s| |s m e].
  - left. now eexists.
  - right. eexists. split; [reflexivity | now left].
  - right. eexists. split; [reflexivity | now right].
  - left. now eexists.
Qed.

Lemma b64_py_int_finite (v : float) :
  B64.finite v = true -> exists z, B64.py_int v = Returns z.
Proof.
  unfold B64.py_int, B64.finite.
  destruct (FloatOps.Prim2SF v) as [s|s| |s m e]; try discriminate;
    intros _; now eexists.
Qed.

Lemma b64_write_field_cases (delimiter : string) (v : float) :
  (exists w, B64.write_field delimiter v = Returns w)
  \/ (exists e, B64.write_field delimiter v = Throws e /\ int_error e).
Proof.
  unfold B64.write_field.
  destruct (b64_py_int_cases v) as [[z ->]|[e [-> He]]].
  - left. now eexists.
  - right. now exists e.
Qed.

Lemma b64_write_row_cases (delimiter : string) (bb : B64.row) :
  bb <> [] ->
  (exists w, B64.write_row str_float delimiter bb = Returns w)
  \/ (exists e, B64.write_row str_float delimiter bb = Throws e
                /\ int_error e).
Proof.
  intro Hne. unfold B64.write_row.
  destruct (omapM_cases _ _ int_error (B64.write_field delimiter)
              (removelast bb)) as [[ws ->]|[e [-> He]]].
  - intros v _. apply b64_write_field_cases.
  - cbn [obind]. rewrite (b64_idx_last_score bb Hne). left. now eexists.
  - right. now exists e.
Qed.

Lemma b64_write_row_finite (delimiter : string) (bb : B64.row) :
  bb <> [] ->
  (forall v, In v (removelast bb) -> B64.finite v = true) ->
  exists w, B64.write_row str_float delimiter bb = Returns w.
Proof.
  intros Hne Hf. unfold B64.write_row.
  destruct (omapM_returns _ _ (B64.write_field delimiter) (removelast bb))
    as [ws ->].
  - intros v Hv. unfold B64.write_field.
    destruct (b64_py_int_finite v (Hf v Hv)) as [z ->]. now eexists.
  - cbn [obind]. rewrite (b64_idx_last_score bb Hne). now eexists.
Qed.

Lemma b64_compute_nms_rows_nonempty (self self' : B64.nms) (t : float) :
  B64.compute_nms self t = Ok (RetNone, self') ->
  exists fr, B64.final_res self' = Some fr /\ Forall (fun r => r <> []) fr.
Proof.
  unfold B64.compute_nms. intro H.
  destruct (length (B64.data self) =? 0)%nat; [discriminate|].
  destruct (B64.py_sorted (@idx_last float) (B64.data self)) as [sd|e];
    [|discriminate]. cbn [bind] in H.
  destruct (B64.nms_while _ sd t _ []) as [res|e]; [|discriminate].
  cbn [bind] in H.
  destruct (mapM (idx sd) res) as [fr|e]; [|discriminate].
  cbn [bind] in H.
  destruct (B64.col_isub fr 2 0) as [fr1|e]; [|discriminate].
  cbn [bind] in H.
  destruct (B64.col_isub fr1 3 1) as [fr2|e] eqn:E; [|discriminate].
  cbn [bind] in H. injection H as <-.
  exists fr2. split; [reflexivity|].
  unfold B64.col_isub in E. apply mapM_inv in E.
  clear - E. induction E as [|r r' l l' Hr _ IH]; constructor; trivial.
  destruct (idx r 3) as [vj|e]; [|discriminate]. cbn [bind] in Hr.
  destruct (idx r 1) as [vi|e]; [|discriminate]. cbn [bind] in Hr.
  now apply set_idx_nonempty in Hr.
Qed.


Lemma b64_write_res_cases (self : B64.nms) (delimiter : string)
    (fr : list B64.row) :
  B64.final_res self = Some fr -> Forall (fun r => r <> []) fr ->
  (exists text, B64.write_res str_float self delimiter = Returns text)
  \/ (exists e, B64.write_res str_float self delimiter = Throws e
                /\ int_error e).
Proof.
  intros E Hne. rewrite Forall_forall in Hne.
  unfold B64.write_res. rewrite E.
  destruct (omapM_cases _ _ int_error (B64.write_row str_float delimiter)
              fr) as [[ls ->]|[e [-> He]]].
  - intros r Hr. apply b64_write_row_cases. now apply Hne.
  - left. now eexists.
  - right. now exists e.
Qed.

Lemma b64_write_res_finite (self : B64.nms) (delimiter : string)
    (fr : list B64.row) :
  B64.final_res self = Some fr -> Forall (fun r => r <> []) fr ->
  (forall r v, In r fr -> In v (removelast r) -> B64.finite v = true) ->
  exists text, B64.write_res str_float self delimiter = Returns text.
Proof.
  intros E Hne Hf. rewrite Forall_forall in Hne.
  unfold B64.write_res. rewrite E.
  destruct (omapM_returns _ _ (B64.write_row str_float delimiter) fr)
    as [ls ->].
  - intros r Hr. apply b64_write_row_finite; [now apply Hne|].
    intros v Hv. now apply (Hf r v).
  - now eexists.
Qed.

(** X15.  After a call of [compute_nms] that reached its end (it returned
    [None]), [write_res] raises neither [IndexError] nor [TypeError],
    whatever the array was: every row left in [final_res] has a last entry
    to write.  It returns, or [int] raises [OverflowError] on an infinite
    coordinate or [ValueError] on a NaN one; it returns when every entry
    before the last of every row is finite. *)
Theorem write_res_after_compute_nms (self self' : B64.nms) (t : float)
    (delimiter : string) :
  B64.compute_nms self t = Ok (RetNone, self') ->
  exists fr,
    B64.final_res self' = Some fr
    /\ ((exists text, B64.write_res str_float self' delimiter = Returns text)
        \/ B64.write_res str_float self' delimiter = Throws OverflowError
        \/ B64.write_res str_float self' delimiter
           = Throws (Raised ValueError))
    /\ ((forall r v, In r fr -> In v (removelast r) -> B64.finite v = true) ->
        exists text, B64.write_res str_float self' delimiter = Returns text).
Proof.
  intro H.
  destruct (b64_compute_nms_rows_nonempty self self' t H) as (fr & E & Hne).
  exists fr. split; [exact E|]. split.
  - destruct (b64_write_res_cases self' delimiter fr E Hne)
      as [Hr|[e [-> [-> | ->]]]].
    + now left.
    + right. now left.
    + right. now right.
  - now apply b64_write_res_finite.
Qed.

End Binary64Output.

Section Binary64OutputScenario.
Import PrimFloat.
Local Open Scope float_scope.

(** One box. *)
Lemma write_res_after_compute_nms_witness :
  exists fr,
    B64.final_res
      (B64.mk_nms [[0; 0; 10; 10; 0.5]]
         (Some (B64.nms_rows 0.5 [[0; 0; 10; 10; 0.5]]))) = Some fr
    /\ exists text,
         B64.write_res (fun _ => "0.5"%string)
           (B64.mk_nms [[0; 0; 10; 10; 0.5]]
              (Some (B64.nms_rows 0.5 [[0; 0; 10; 10; 0.5]])))
           ","%string
         = Returns text.
Proof.
  destruct (write_res_after_compute_nms (fun _ => "0.5"%string)
              (B64.mk_nms [[0; 0; 10; 10; 0.5]] None)
              (B64.mk_nms [[0; 0; 10; 10; 0.5]]
                 (Some (B64.nms_rows 0.5 [[0; 0; 10; 10; 0.5]])))
              0.5 ","%string) as (fr & E & _ & Hf).
  - apply b64_compute_nms_spec.
    + discriminate.
    + repeat constructor; unfold B64.wide; simpl; lia.
  - exists fr. split; [exact E|]. apply Hf.
    injection E as <-.
    intros r v [<-|[]] Hv.
    destruct Hv as [<-|[<-|[<-|[<-|[]]]]]; vm_compute; reflexivity.
Defined.

End Binary64OutputScenario.

(** X16.  On an object whose [final_res] is still [None], [write_res]
    raises [TypeError]; this is what the main program does on an empty
    input file, where [compute_nms] returns early without setting
    [final_res]. *)
Theorem main_empty_file_type_error (str_float : num -> string)
    (X : list row) (delimiter : string) :
  write_res str_float (mk_nms X None) delimiter = Throws TypeError
  /\ (exists out,
        get_data (mk_nms [] None) [] = Ok (mk_nms [] None)
        /\ compute_nms (mk_nms [] None) (frac 1 2) = Ok out
        /\ final_res (snd out) = None)
  /\ main str_float [] = Throws TypeError.
Proof.
  split; [reflexivity|]. split; [|reflexivity].
  eexists. repeat split.
Qed.

Section Binary64Main.
Import PrimFloat.
Local Open Scope float_scope.



End Binary64Main.

(** ** compute_nms: termination and exceptions *)

Lemma mapM_raise_inv (A B : Type) (f : A -> M B) (l : list A) (e : exn) :
  mapM f l = Raise e -> exists a, In a l /\ f a = Raise e.
Proof.
  induction l as [|x l IH]; simpl; [discriminate|].
  destruct (f x) as [b|e'] eqn:E; cbn [bind].
  - destruct (mapM f l) as [bs|e'']; cbn [bind]; [discriminate|].
    intros [= ->]. destruct (IH eq_refl) as [a [Ha Hf]].
    exists a. split; [now right | assumption].
  - intros [= ->]. exists x. split; [now left | assumption].
Qed.

Lemma idx_raise (A : Type) (l : list A) (i : nat) (e : exn) :
  idx l i = Raise e -> e = IndexError.
Proof. unfold idx. destruct (nth_error l i); congruence. Qed.

Lemma idx_last_raise (A : Type) (l : list A) (e : exn) :
  idx_last l = Raise e -> e = IndexError.
Proof.
  unfold idx_last. destruct l; [congruence | apply idx_raise].
Qed.

Lemma set_idx_raise (A : Type) (l : list A) :
  forall i v e, set_idx l i v = Raise e -> e = IndexError.
Proof.
  induction l as [|a l IH]; intros [|i] v e; simpl; try congruence.
  destruct (set_idx l i v) eqn:E; cbn [bind]; [discriminate|].
  intros [= <-]. eapply IH; eassumption.
Qed.

Lemma get_iou_raise (b1 b2 : row) (e : exn) :
  get_iou b1 b2 = Raise e -> e = IndexError.
Proof.
  destruct (le_lt_dec 4 (length b1)) as [H1|H1];
    destruct (le_lt_dec 4 (length b2)) as [H2|H2];
    try (rewrite get_iou_iou by assumption; discriminate);
    rewrite get_iou_short by lia; congruence.
Qed.

Lemma np_delete_raise (A : Type) (arr : list A) (obj : list nat) (e : exn) :
  np_delete arr obj = Raise e -> e = IndexError.
Proof. unfold np_delete. destruct (forallb _ obj); congruence. Qed.

Lemma delete_from_length (A : Type) (arr : list A) (obj : list nat) :
  forall i, (length (delete_from i arr obj) <= length arr)%nat.
Proof.
  induction arr as [|a arr IH]; intro i; simpl; trivial.
  specialize (IH (S i)). destruct (existsb (Nat.eqb i) obj); simpl; lia.
Qed.

Lemma delete_from_shrinks (A : Type) (arr : list A) (obj : list nat) :
  forall i k, (k < length arr)%nat -> In (i + k)%nat obj ->
              (length (delete_from i arr obj) < length arr)%nat.
Proof.
  induction arr as [|a arr IH]; intros i k Hk Hin; simpl in *; [lia|].
  destruct (existsb (Nat.eqb i) obj) eqn:E.
  - pose proof (delete_from_length _ arr obj (S i)). lia.
  - destruct k as [|k].
    + exfalso. rewrite Nat.add_0_r in Hin.
      assert (T : existsb (Nat.eqb i) obj = true)
        by (apply existsb_exists; exists i; split;
            [assumption | apply Nat.eqb_refl]).
      congruence.
    + simpl. apply -> Nat.succ_lt_mono. apply (IH (S i) k); [lia|].
      now replace (S i + k)%nat with (i + S k)%nat by lia.
Qed.

(** A pass of the loop raises nothing but [IndexError], and leaves fewer
    indices than it found. *)
Lemma nms_iter_progress (sd : list row) (t : num) (inds res : list nat) :
  inds <> [] ->
  match nms_iter sd t inds res with
  | Ok st => (length (fst st) < length inds)%nat
  | Raise e => e = IndexError
  end.
Proof.
  intro Hne. unfold nms_iter.
  destruct (idx inds (length inds - 1)) as [h|e] eqn:E1; cbn [bind];
    [|now apply idx_raise in E1].
  destruct (mapM (idx sd) (removelast inds)) as [others|e] eqn:E2;
    cbn [bind].
  2:{ apply mapM_raise_inv in E2. destruct E2 as [a [_ Ha]].
      now apply idx_raise in Ha. }
  match goal with
  | |- match bind ?m _ with _ => _ end => destruct m as [ious|e] eqn:E3
  end; cbn [bind].
  2:{ apply mapM_raise_inv in E3. destruct E3 as [b [_ Hb]].
      destruct (idx_last inds) as [i|e'] eqn:E4; cbn [bind] in Hb;
        [|injection Hb as <-; now apply idx_last_raise in E4].
      destruct (idx sd i) as [best|e'] eqn:E5; cbn [bind] in Hb;
        [|injection Hb as <-; now apply idx_raise in E5].
      now apply get_iou_raise in Hb. }
  destruct (np_delete inds [(length inds - 1)%nat]) as [inds1|e] eqn:E6;
    cbn [bind]; [|now apply np_delete_raise in E6].
  match goal with
  | |- match bind ?m _ with _ => _ end => destruct m as [inds2|e] eqn:E7
  end; cbn [bind]; [|now apply np_delete_raise in E7].
  cbn [fst].
  unfold np_delete in E6, E7.
  destruct (forallb _ [(length inds - 1)%nat]); [|discriminate].
  injection E6 as <-.
  match type of E7 with
  | (if ?c then _ else _) = _ => destruct c; [|discriminate]
  end.
  injection E7 as <-.
  pose proof (delete_from_length _
                (delete_from 0 inds [(length inds - 1)%nat])
                (np_where (map (fun v => gtb v t) ious)) 0) as L1.
  assert (L2 : (length (delete_from 0 inds [(length inds - 1)%nat])
                < length inds)%nat).
  { apply (delete_from_shrinks _ inds _ 0 (length inds - 1)).
    - destruct inds; [congruence | simpl; lia].
    - now left. }
  lia.
Qed.

Lemma nms_while_raise (sd : list row) (t : num) :
  forall fuel inds res e,
    (length inds <= fuel)%nat ->
    nms_while fuel sd t inds res = Raise e -> e = IndexError.
Proof.
  induction fuel as [|fuel IH]; intros inds res e Hl; simpl.
  - destruct inds; simpl in *; [discriminate | lia].
  - destruct inds as [|i0 inds0] eqn:EI; [discriminate|]. rewrite <- EI in *.
    replace (0 <? length inds)%nat with true
      by (rewrite EI; reflexivity).
    pose proof (nms_iter_progress sd t inds res) as P.
    destruct (nms_iter sd t inds res) as [st|e'] eqn:E; cbn [bind].
    + apply IH. assert (inds <> []) by (rewrite EI; discriminate).
      specialize (P H). lia.
    + intros [= <-]. apply P. rewrite EI. discriminate.
Qed.

(** X18.  [compute_nms] always terminates, and the only exception it can
    raise is [IndexError] (rows too short for the indices it reads):
    every pass of the loop removes at least the accepted index, so the
    loop ends within as many passes as the array has rows. *)
Theorem compute_nms_raises_only_index_error (self : nms) (t : num) (e : exn) :
  compute_nms self t = Raise e -> e = IndexError.
Proof.
  unfold compute_nms.
  destruct (length (data self) =? 0)%nat; [discriminate|].
  destruct (py_sorted (@idx_last num) (data self)) as [sd|e1] eqn:E1;
    cbn [bind].
  2:{ intros [= <-]. unfold py_sorted in E1.
      destruct (mapM (@idx_last num) (data self)) as [ks|e2] eqn:E2;
        cbn [bind] in E1; [discriminate|].
      injection E1 as <-. apply mapM_raise_inv in E2.
      destruct E2 as [r [_ Hr]]. now apply idx_last_raise in Hr. }
  destruct (nms_while _ sd t _ []) as [res|e2] eqn:E2; cbn [bind].
  2:{ intros [= <-]. eapply nms_while_raise; [|exact E2]. apply le_n. }
  destruct (mapM (idx sd) res) as [fr|e3] eqn:E3; cbn [bind].
  2:{ intros [= <-]. apply mapM_raise_inv in E3.
      destruct E3 as [i [_ Hi]]. now apply idx_raise in Hi. }
  assert (Hc : forall arr j i e', col_isub arr j i = Raise e' ->
                                  e' = IndexError).
  { intros arr j i e' Hc. unfold col_isub in Hc.
    apply mapM_raise_inv in Hc. destruct Hc as [r [_ Hr]].
    destruct (idx r j) as [vj|e4] eqn:E4; cbn [bind] in Hr;
      [|injection Hr as <-; now apply idx_raise in E4].
    destruct (idx r i) as [vi|e5] eqn:E5; cbn [bind] in Hr;
      [|injection Hr as <-; now apply idx_raise in E5].
    now apply set_idx_raise in Hr. }
  destruct (col_isub fr 2 0) as [fr1|e4] eqn:E4; cbn [bind];
    [|intros [= <-]; now apply Hc in E4].
  destruct (col_isub fr1 3 1) as [fr2|e5] eqn:E5; cbn [bind];
    [discriminate | intros [= <-]; now apply Hc in E5].
Qed.

(** An array of one row with two columns. *)
Lemma compute_nms_raises_only_index_error_witness :
  compute_nms (mk_nms [[of_Z 0; of_Z 0]] None) (frac 1 2) = Raise IndexError.
Proof.
  destruct (compute_nms (mk_nms [[of_Z 0; of_Z 0]] None) (frac 1 2))
    as [out|e] eqn:E.
  - vm_compute in E. discriminate.
  - f_equal.
    exact (compute_nms_raises_only_index_error _ _ _ E).
Defined.

